(** * Node cluster manager: consistent-hash routing with a repartition resolver

    A shallow embedding of the Go package [node] (type [Manager] with its
    constructors and the methods [Add], [Remove], [Get], [List], [String],
    [Distribute] and [Route]) together with the properties of the routing
    and membership primitive.  The manager's own [Get] and [String] are
    called [ManagerGet] and [ManagerString] here, next to the resolver's
    [Get].

    The reader/writer lock [mu] serialises every method, so each method is
    modelled as one atomic step of a state-and-panic monad over the heap the
    manager owns.  A Go interface value may be [nil]; calling a method on a
    nil interface panics, and the mutations made before the panic stay in
    place. *)

From Stdlib Require Import Strings.Byte.
From stdpp Require Import base option list gmap sets strings.

Open Scope string_scope.

(** ** Values of the Go program *)

(** [group Group]: only its two labels are used (for metrics). *)
Record Group := mkGroup { Space : string; Group_String : string }.

(** The object behind a non-nil [Node] interface value.  [Member_String] is
    the [String()] method through which the hash ring identifies a member
    ([Node] embeds [consistent.Member]). *)
Record NodeObj := mkNode {
  Name : string;
  Url : string;
  Member_String : string
}.

#[global] Instance NodeObj_eq_dec : EqDecision NodeObj.
Proof. solve_decision. Defined.

(** A [Node] interface value: [None] is Go's [nil]. *)
Abbreviation Node := (option NodeObj) (only parsing).
Abbreviation nil_Node := (@None NodeObj) (only parsing).

(** A Go [error]: [None] is the nil error. *)
Definition error : Type := option string.

(** [type nodeFactory func(group, name, url, hm) (Node, error)].  The
    health monitor argument is the manager itself and plays no part in what
    the factory returns to the manager. *)
Definition nodeFactory : Type := Group → string → string → Node * error.

(** Effects that leave the manager: [node.Close()] and the two route meters
    marked by [Route]. *)
Inductive Event :=
| EvClose (n : NodeObj)
| EvRoutes (space group label : string).

(** ** Outcome of a call, and the monad of manager methods *)

Inductive result (A : Type) :=
| Val (a : A)
| Panic.
Arguments Val {A} a.
Arguments Panic {A}.

Definition Go (S A : Type) : Type := S → result A * S.

#[global] Instance Go_ret {S} : MRet (Go S) := λ A a s, (Val a, s).
#[global] Instance Go_bind {S} : MBind (Go S) := λ A B f c s,
  match c s with
  | (Val a, s') => f a s'
  | (Panic, s') => (Panic, s')
  end.

Definition gets {S A} (f : S → A) : Go S A := λ s, (Val (f s), s).
Definition modify {S} (f : S → S) : Go S unit := λ s, (Val tt, f s).
Definition panic {S A} : Go S A := λ s, (Panic, s).

(** ** External collaborators

    [rpc.Url2NodeName], [xxhash.Sum64] and the partition-owner lookup of the
    consistent-hashing library live outside this package and are taken as
    parameters. *)
Class Collaborators := {
  Url2NodeName : string → string;
  Sum64 : list byte → N;
  locate : gset string → list byte → option string
}.

(** The contract of the placement function the manager relies on: the owner
    of a key is a current member, and a ring with at least one member always
    has an owner. *)
Class LocateContract `{Collaborators} : Prop := {
  locate_elem : ∀ (S : gset string) key n, locate S key = Some n → n ∈ S;
  locate_is_Some : ∀ (S : gset string) key, S ≠ ∅ → is_Some (locate S key)
}.

(** ** The hash ring as the manager consumes it *)

(** Modelled from the spec: the Hash Ring ([consistent.Consistent]) with
    [New], [Add], [Remove] and [LocateKey].  Members are identified by their
    [String()]; [Add] is idempotent for a key already present, [Remove] for
    a key that is absent, and [LocateKey] returns the member the placement
    function selects among the current members. *)
Record Consistent := mkRing { members : gmap string NodeObj }.

(** The unexported [add]: it calls [member.String()], which panics on a nil
    interface. *)
Definition consistent_add (c : Consistent) (member : Node) : result Consistent :=
  match member with
  | None => Panic
  | Some n => Val (mkRing (<[Member_String n := n]> (members c)))
  end.

Fixpoint consistent_New_from (c : Consistent) (ms : list Node) : result Consistent :=
  match ms with
  | [] => Val c
  | member :: rest =>
      match consistent_add c member with
      | Val c' => consistent_New_from c' rest
      | Panic => Panic
      end
  end.

Definition consistent_New (ms : list Node) : result Consistent :=
  consistent_New_from (mkRing ∅) ms.

Definition consistent_Add (c : Consistent) (member : Node) : result Consistent :=
  match member with
  | None => Panic
  | Some n =>
      match members c !! Member_String n with
      | Some _ => Val c
      | None => consistent_add c member
      end
  end.

Definition consistent_Remove (c : Consistent) (name : string) : Consistent :=
  mkRing (delete name (members c)).

Definition consistent_LocateKey `{Collaborators} (c : Consistent) (key : list byte) : Node :=
  match locate (dom (members c)) key with
  | Some owner => members c !! owner
  | None => nil_Node
  end.

(** ** The repartition resolver interface *)

Class RepartitionResolver (R : Type) := {
  Get : R → N → option string;
  Put : R → N → string → R
}.

(** Modelled from the spec: the no-op resolver [noopRepartitionResolver];
    [Get] always reports not-found and [Put] does nothing. *)
Inductive noopRepartitionResolver := noop.

#[global] Instance noop_resolver : RepartitionResolver noopRepartitionResolver := {
  Get _ _ := None;
  Put r _ _ := r
}.

(** Modelled from the spec: the stateful resolver without eviction; [Get]
    returns the last name [Put] for that hashed key and [Put] overwrites. *)
Record statefulResolver := mkStateful { cache : gmap N string }.

#[global] Instance stateful_resolver : RepartitionResolver statefulResolver := {
  Get r k := cache r !! k;
  Put r k name := mkStateful (<[k := name]> (cache r))
}.

(** What the spec requires of every resolver: no false positives. *)
Class SoundResolver (R : Type) `{RepartitionResolver R} : Prop := {
  Get_Put_sound : ∀ (r : R) k name name',
    Get (Put r k name) k = Some name' → name' = name
}.

(** A resolver that keeps what it was told. *)
Class RetainingResolver (R : Type) `{RepartitionResolver R} : Prop := {
  Get_Put_eq : ∀ (r : R) k name, Get (Put r k name) k = Some name;
  Get_Put_ne : ∀ (r : R) k k' name, k ≠ k' → Get (Put r k name) k' = Get r k'
}.

(** ** The manager *)

Section manager.
Context `{Collaborators} {R : Type} `{RepartitionResolver R}.

(** [type Manager struct]; the lock [mu] is the atomicity of each method. *)
Record Manager := mkManager {
  group : Group;
  nodes : gmap string Node;
  hashRing : Consistent;
  resolver : R;
  m_nodeFactory : nodeFactory;
  nodeName2Epochs : gmap string N;
  midEpoch : N
}.

(** The heap a method runs on: the manager and the effects emitted so far. *)
Record World := mkWorld { mgr : Manager; events : list Event }.

Definition set_nodes (f : gmap string Node → gmap string Node) (w : World) : World :=
  let m := mgr w in
  mkWorld (mkManager (group m) (f (nodes m)) (hashRing m) (resolver m)
             (m_nodeFactory m) (nodeName2Epochs m) (midEpoch m)) (events w).

Definition set_hashRing (f : Consistent → Consistent) (w : World) : World :=
  let m := mgr w in
  mkWorld (mkManager (group m) (nodes m) (f (hashRing m)) (resolver m)
             (m_nodeFactory m) (nodeName2Epochs m) (midEpoch m)) (events w).

Definition set_resolver (f : R → R) (w : World) : World :=
  let m := mgr w in
  mkWorld (mkManager (group m) (nodes m) (hashRing m) (f (resolver m))
             (m_nodeFactory m) (nodeName2Epochs m) (midEpoch m)) (events w).

Definition set_nodeName2Epochs (f : gmap string N → gmap string N) (w : World) : World :=
  let m := mgr w in
  mkWorld (mkManager (group m) (nodes m) (hashRing m) (resolver m)
             (m_nodeFactory m) (f (nodeName2Epochs m)) (midEpoch m)) (events w).

Definition emit (e : Event) : Go World unit :=
  modify (λ w, mkWorld (mgr w) (events w ++ [e])).

(** [node.Close()] on an interface value. *)
Definition Node_Close (node : Node) : Go World unit :=
  match node with
  | None => panic
  | Some n => emit (EvClose n)
  end.

(** [m.hashRing.Add(node)]. *)
Definition hashRing_Add (node : Node) : Go World unit := λ w,
  match consistent_Add (hashRing (mgr w)) node with
  | Val c => (Val tt, set_hashRing (λ _, c) w)
  | Panic => (Panic, w)
  end.

(** The loop of the constructor over [urls]. *)
Fixpoint NewManager_loop (grp : Group) (nf : nodeFactory) (urls : list string)
    (ns : gmap string Node) (ms : list Node) : gmap string Node * list Node :=
  match urls with
  | [] => (ns, ms)
  | url :: rest =>
      let nodeName := Url2NodeName url in
      match ns !! nodeName with
      | Some _ => NewManager_loop grp nf rest ns ms
      | None =>
          let node := (nf grp nodeName url).1 in
          NewManager_loop grp nf rest (<[nodeName := node]> ns) (ms ++ [node])
      end
  end.

Definition NewManagerWithRepartition (grp : Group) (nf : nodeFactory)
    (urls : list string) (rsv : R) : result Manager :=
  let '(ns, ms) := NewManager_loop grp nf urls ∅ [] in
  match consistent_New ms with
  | Val ring => Val (mkManager grp ns ring rsv nf ∅ 0%N)
  | Panic => Panic
  end.

Definition Add (url : string) : Go World unit :=
  let nodeName := Url2NodeName url in
  m ← gets mgr;
  match nodes m !! nodeName with
  | Some _ => mret tt
  | None =>
      let node := (m_nodeFactory m (group m) nodeName url).1 in
      modify (set_nodes (insert nodeName node));;
      hashRing_Add node
  end.

Definition Remove (url : string) : Go World unit :=
  let nodeName := Url2NodeName url in
  m ← gets mgr;
  match nodes m !! nodeName with
  | Some node =>
      Node_Close node;;
      modify (set_nodes (delete nodeName));;
      modify (set_nodeName2Epochs (delete nodeName));;
      modify (set_hashRing (λ c, consistent_Remove c nodeName))
  | None => mret tt
  end.

(** [m.nodes[name]]: a missing key reads as the zero value, nil. *)
Definition nodes_at (m : Manager) (name : string) : Node :=
  default nil_Node (nodes m !! name).

Definition ManagerGet (url : string) : Go World Node :=
  m ← gets mgr; mret (nodes_at m (Url2NodeName url)).

(** [List]: the values of the map; the order carries no meaning. *)
Definition List : Go World (list Node) :=
  m ← gets mgr; mret ((map_to_list (nodes m)).*2).

(** [String]: the names joined by a comma, in no meaningful order. *)
Definition ManagerString : Go World string :=
  m ← gets mgr; mret (String.concat ", " (map_to_list (nodes m)).*1).

Definition Distribute (key : list byte) : Go World Node :=
  let k := Sum64 key in
  m ← gets mgr;
  match Get (resolver m) k with
  | Some name => mret (nodes_at m name)
  | None =>
      match consistent_LocateKey (hashRing m) key with
      | None => mret nil_Node
      | Some node =>
          modify (set_resolver (λ r, Put r k (Name node)));;
          mret (Some node)
      end
  end.

Definition Route (key : list byte) : Go World string :=
  n ← Distribute key;
  match n with
  | Some node =>
      m ← gets mgr;
      emit (EvRoutes (Space (group m)) (Group_String (group m)) "overall");;
      emit (EvRoutes (Space (group m)) (Group_String (group m)) (Name node));;
      mret (Url node)
  | None => mret ""
  end.

End manager.

Arguments Manager R : clear implicits.
Arguments World R : clear implicits.

(** [NewManager] wires the no-op resolver. *)
Definition NewManager `{Collaborators} (grp : Group) (nf : nodeFactory)
    (urls : list string) : result (Manager noopRepartitionResolver) :=
  NewManagerWithRepartition grp nf urls noop.

(** ** Sequences of calls *)

Inductive Call :=
| CallAdd (url : string)
| CallRemove (url : string)
| CallDistribute (key : list byte)
| CallRoute (key : list byte).

Section calls.
Context `{Collaborators} {R : Type} `{RepartitionResolver R}.

Definition call (c : Call) : Go (World R) unit :=
  match c with
  | CallAdd url => Add url
  | CallRemove url => Remove url
  | CallDistribute key => Distribute key;; mret tt
  | CallRoute key => Route key;; mret tt
  end.

Fixpoint calls (cs : list Call) : Go (World R) unit :=
  match cs with
  | [] => mret tt
  | c :: rest => call c;; calls rest
  end.

(** ** Invariants of the manager *)

(** The factory hands back a node that carries the name it was given, both
    as [Name()] and as ring identity [String()]. *)
Definition factory_ok (nf : nodeFactory) : Prop :=
  ∀ g name url n, (nf g name url).1 = Some n →
    Name n = name ∧ Member_String n = name.

(** Every name of the Node Set has a member in the Hash Ring. *)
Definition ring_covers (m : Manager R) : Prop :=
  ∀ name, is_Some (nodes m !! name) → is_Some (members (hashRing m) !! name).

(** Every entry of the Node Set holds a node (not nil) that is filed under
    its own name. *)
Definition nodes_named (m : Manager R) : Prop :=
  ∀ name node, nodes m !! name = Some node →
    ∃ n, node = Some n ∧ Name n = name ∧ Member_String n = name.

(** Every ring member is the node the Node Set holds under the same key. *)
Definition ring_in_nodes (m : Manager R) : Prop :=
  ∀ key n, members (hashRing m) !! key = Some n →
    nodes m !! key = Some (Some n).

Record wf (m : Manager R) : Prop := mkWf {
  wf_factory : factory_ok (m_nodeFactory m);
  wf_named : nodes_named m;
  wf_ring : ring_in_nodes m
}.

(** How many nodes of a [List()] snapshot carry a given name. *)
Definition count_named (name : string) (l : list Node) : nat :=
  length (filter (λ node : Node, Name <$> node = Some name) l).

End calls.

(** ** A small concrete cluster

    An instance of the collaborators on which the definitions can be run:
    names are the URLs themselves, the key hash is the key's length, and the
    owner of a key is picked among the sorted members by that length. *)

Definition demo_locate (S : gset string) (key : list byte) : option string :=
  elements S !! (length key `mod` length (elements S)).

Definition demo : Collaborators := {|
  Url2NodeName url := url;
  Sum64 key := N.of_nat (length key);
  locate := demo_locate
|}.

Definition demo_group : Group := mkGroup "eth" "mainnet".

(** A factory that fails on the URL ["down"] (nil node and an error), that
    reports an error together with a usable node on ["half"], and that
    succeeds everywhere else. *)
Definition demo_factory : nodeFactory := λ _ name url,
  if decide (url = "down") then (nil_Node, Some "dial failed")
  else if decide (url = "half") then (Some (mkNode name url name), Some "slow start")
  else (Some (mkNode name url name), None).

Definition node_a : NodeObj := mkNode "a" "a" "a".
Definition node_b : NodeObj := mkNode "b" "b" "b".
Definition key1 : list byte := [x00].

(** The cluster [{a}] as [NewManager] builds it (no-op resolver). *)
Definition demo_noop_a : Manager noopRepartitionResolver :=
  mkManager demo_group {["a" := Some node_a]} (mkRing {["a" := node_a]})
    noop demo_factory ∅ 0%N.

(** The clusters [{a}], [{a, b}] and the empty cluster with a stateful
    resolver. *)
Definition demo_stateful_a : Manager statefulResolver :=
  mkManager demo_group {["a" := Some node_a]} (mkRing {["a" := node_a]})
    (mkStateful ∅) demo_factory ∅ 0%N.

Definition demo_stateful_ab : Manager statefulResolver :=
  mkManager demo_group (<["b" := Some node_b]> {["a" := Some node_a]})
    (mkRing (<["b" := node_b]> {["a" := node_a]}))
    (mkStateful ∅) demo_factory ∅ 0%N.

Definition demo_stateful_empty : Manager statefulResolver :=
  mkManager demo_group ∅ (mkRing ∅) (mkStateful ∅) demo_factory ∅ 0%N.

(** * Properties *)

(** Unfolds the monad of a method down to plain state passing. *)
Ltac go_simpl :=
  unfold mbind, Go_bind, mret, Go_ret, gets, modify, panic; simpl.

(** ** Laws of the two resolvers *)

#[global] Instance noop_sound : SoundResolver noopRepartitionResolver.
Proof. split. intros r k name name' Hget. discriminate Hget. Qed.

#[global] Instance stateful_sound : SoundResolver statefulResolver.
Proof.
  split. intros r k name name'. simpl. rewrite lookup_insert_eq. congruence.
Qed.

#[global] Instance stateful_retaining : RetainingResolver statefulResolver.
Proof.
  split; intros; simpl.
  - apply lookup_insert_eq.
  - by apply lookup_insert_ne.
Qed.

(** ** How each method steps *)

Section steps.
Context `{Collaborators} {R : Type} `{RepartitionResolver R}.
Implicit Types (w : World R) (m : Manager R) (key : list byte).

Lemma Distribute_hit key w name :
  Get (resolver (mgr w)) (Sum64 key) = Some name →
  Distribute key w = (Val (nodes_at (mgr w) name), w).
Proof. intros Hget. unfold Distribute. go_simpl. by rewrite Hget. Qed.

Lemma Distribute_miss_none key w :
  Get (resolver (mgr w)) (Sum64 key) = None →
  consistent_LocateKey (hashRing (mgr w)) key = None →
  Distribute key w = (Val nil_Node, w).
Proof. intros Hget Hloc. unfold Distribute. go_simpl. by rewrite Hget, Hloc. Qed.

Lemma Distribute_miss_ring key w n :
  Get (resolver (mgr w)) (Sum64 key) = None →
  consistent_LocateKey (hashRing (mgr w)) key = Some n →
  Distribute key w =
    (Val (Some n), set_resolver (λ r, Put r (Sum64 key) (Name n)) w).
Proof. intros Hget Hloc. unfold Distribute. go_simpl. by rewrite Hget, Hloc. Qed.

Lemma Add_present url w node :
  nodes (mgr w) !! Url2NodeName url = Some node →
  Add url w = (Val tt, w).
Proof. intros Hlk. unfold Add. go_simpl. by rewrite Hlk. Qed.

Lemma Add_absent url w :
  nodes (mgr w) !! Url2NodeName url = None →
  Add url w =
    hashRing_Add (m_nodeFactory (mgr w) (group (mgr w)) (Url2NodeName url) url).1
      (set_nodes (insert (Url2NodeName url)
         (m_nodeFactory (mgr w) (group (mgr w)) (Url2NodeName url) url).1) w).
Proof. intros Hlk. unfold Add. go_simpl. by rewrite Hlk. Qed.

Lemma Remove_absent url w :
  nodes (mgr w) !! Url2NodeName url = None →
  Remove url w = (Val tt, w).
Proof. intros Hlk. unfold Remove. go_simpl. by rewrite Hlk. Qed.

Lemma Remove_nil url w :
  nodes (mgr w) !! Url2NodeName url = Some nil_Node →
  Remove url w = (Panic, w).
Proof. intros Hlk. unfold Remove. go_simpl. by rewrite Hlk. Qed.

Lemma Remove_present url w n :
  nodes (mgr w) !! Url2NodeName url = Some (Some n) →
  Remove url w =
    (Val tt,
     mkWorld
       (mkManager (group (mgr w))
          (delete (Url2NodeName url) (nodes (mgr w)))
          (consistent_Remove (hashRing (mgr w)) (Url2NodeName url))
          (resolver (mgr w)) (m_nodeFactory (mgr w))
          (delete (Url2NodeName url) (nodeName2Epochs (mgr w)))
          (midEpoch (mgr w)))
       (events w ++ [EvClose n])).
Proof. intros Hlk. unfold Remove. go_simpl. by rewrite Hlk. Qed.

(** The ring lookup returns a member filed under the owner's key. *)
Lemma LocateKey_Some (c : Consistent) key n :
  consistent_LocateKey c key = Some n →
  ∃ owner, locate (dom (members c)) key = Some owner ∧
           members c !! owner = Some n.
Proof.
  unfold consistent_LocateKey.
  destruct (locate (dom (members c)) key) as [owner|] eqn:Hloc; [|done].
  intros Hlk. by exists owner.
Qed.

Lemma LocateKey_nonempty `{!LocateContract} (c : Consistent) key :
  members c ≠ ∅ → is_Some (consistent_LocateKey c key).
Proof.
  intros Hne. unfold consistent_LocateKey.
  destruct (locate_is_Some (dom (members c)) key) as [owner Hloc].
  { intros Hdom. by apply dom_empty_inv_L in Hdom. }
  rewrite Hloc. apply elem_of_dom. by eapply locate_elem.
Qed.

End steps.

(** ** The ring built by [consistent.New] *)

Lemma consistent_New_from_nonnil (c ring : Consistent) (ms : list Node) :
  consistent_New_from c ms = Val ring → ∀ node, node ∈ ms → node ≠ nil_Node.
Proof.
  revert c. induction ms as [|member rest IH]; intros c Hnew node Hin.
  - by apply elem_of_nil in Hin.
  - simpl in Hnew. destruct member as [n|]; simpl in Hnew; [|done].
    apply elem_of_cons in Hin as [->|Hin]; [done|]. by eapply IH.
Qed.

Lemma consistent_New_from_covers (c ring : Consistent) (ms : list Node) :
  consistent_New_from c ms = Val ring →
  (∀ key, is_Some (members c !! key) → is_Some (members ring !! key)) ∧
  (∀ n, Some n ∈ ms → is_Some (members ring !! Member_String n)).
Proof.
  revert c. induction ms as [|member rest IH]; intros c Hnew.
  - simpl in Hnew. injection Hnew as <-. split; [done|].
    intros n Hin. by apply elem_of_nil in Hin.
  - simpl in Hnew. destruct member as [n0|]; simpl in Hnew; [|done].
    destruct (IH _ Hnew) as [Hold Hms]. simpl in Hold. split.
    + intros key Hkey. apply Hold.
      destruct (decide (Member_String n0 = key)) as [->|Hne].
      * rewrite lookup_insert_eq. by eexists.
      * by rewrite lookup_insert_ne.
    + intros n Hin. apply elem_of_cons in Hin as [Heq|Hin]; [|by apply Hms].
      injection Heq as ->. apply Hold. rewrite lookup_insert_eq. by eexists.
Qed.

Lemma consistent_New_from_origin (c ring : Consistent) (ms : list Node) :
  consistent_New_from c ms = Val ring →
  ∀ key n, members ring !! key = Some n →
    members c !! key = Some n ∨ (Some n ∈ ms ∧ Member_String n = key).
Proof.
  revert c. induction ms as [|member rest IH]; intros c Hnew key n Hlk.
  - simpl in Hnew. injection Hnew as <-. by left.
  - simpl in Hnew. destruct member as [n0|]; simpl in Hnew; [|done].
    destruct (IH _ Hnew key n Hlk) as [Hc|[Hin Hkey]].
    + simpl in Hc. destruct (decide (Member_String n0 = key)) as [Heq|Hne].
      * subst key. rewrite lookup_insert_eq in Hc. injection Hc as ->.
        right. split; [apply elem_of_cons; by left|done].
      * rewrite lookup_insert_ne in Hc by done. by left.
    + right. split; [apply elem_of_cons; by right|done].
Qed.

(** ** The loop of the constructor *)

Section constructor.
Context `{Collaborators}.

(** Every URL ends up with an entry, entries are never overwritten, and
    every stored value was also appended to the member list: the error the
    factory returned plays no part. *)
Lemma NewManager_loop_stores (g : Group) (nf : nodeFactory) (urls : list string)
    (ns ns' : gmap string Node) (ms ms' : list Node) :
  NewManager_loop g nf urls ns ms = (ns', ms') →
  (∀ name node, ns !! name = Some node → node ∈ ms) →
  (∀ name node, ns !! name = Some node → ns' !! name = Some node) ∧
  (∀ url, url ∈ urls → is_Some (ns' !! Url2NodeName url)) ∧
  (∀ name node, ns' !! name = Some node → node ∈ ms').
Proof.
  revert ns ms. induction urls as [|url rest IH]; intros ns ms Hloop Hin.
  - simpl in Hloop. injection Hloop as <- <-. split_and!; [done| |done].
    intros url Hurl. by apply elem_of_nil in Hurl.
  - simpl in Hloop.
    destruct (ns !! Url2NodeName url) as [node0|] eqn:Hlk.
    + destruct (IH _ _ Hloop Hin) as (Hext & Hurls & Hin').
      split_and!; [done| |done].
      intros url' Hurl'. apply elem_of_cons in Hurl' as [->|Hurl'].
      * rewrite (Hext _ _ Hlk). by eexists.
      * by apply Hurls.
    + destruct (IH _ _ Hloop) as (Hext & Hurls & Hin').
      { intros name node Hname. apply elem_of_app.
        destruct (decide (Url2NodeName url = name)) as [<-|Hne].
        - rewrite lookup_insert_eq in Hname. injection Hname as <-.
          right. by apply list_elem_of_singleton.
        - rewrite lookup_insert_ne in Hname by done. left. by eapply Hin. }
      split_and!; [| |done].
      * intros name node Hname. apply Hext.
        rewrite lookup_insert_ne; [done|]. intros <-. congruence.
      * intros url' Hurl'. apply elem_of_cons in Hurl' as [->|Hurl'].
        -- erewrite Hext; [by eexists|]. apply lookup_insert_eq.
        -- by apply Hurls.
Qed.

(** With a factory that names its nodes, the entries are filed under the
    node's own name and the member list holds exactly the stored nodes. *)
Lemma NewManager_loop_named (g : Group) (nf : nodeFactory) (urls : list string)
    (ns ns' : gmap string Node) (ms ms' : list Node) :
  factory_ok nf →
  NewManager_loop g nf urls ns ms = (ns', ms') →
  (∀ name n, ns !! name = Some (Some n) → Name n = name ∧ Member_String n = name) →
  (∀ n, Some n ∈ ms → ns !! Member_String n = Some (Some n)) →
  (∀ name n, ns' !! name = Some (Some n) → Name n = name ∧ Member_String n = name) ∧
  (∀ n, Some n ∈ ms' → ns' !! Member_String n = Some (Some n)).
Proof.
  intros Hnf. revert ns ms.
  induction urls as [|url rest IH]; intros ns ms Hloop Hnamed Hback.
  - simpl in Hloop. by injection Hloop as <- <-.
  - simpl in Hloop.
    destruct (ns !! Url2NodeName url) as [node0|] eqn:Hlk; [by eapply IH|].
    eapply IH; [exact Hloop| |].
    + intros name n Hname.
      destruct (decide (Url2NodeName url = name)) as [<-|Hne].
      * rewrite lookup_insert_eq in Hname. injection Hname as Hname.
        by eapply Hnf.
      * rewrite lookup_insert_ne in Hname by done. by apply Hnamed.
    + intros n Hn. apply elem_of_app in Hn as [Hn|Hn].
      * rewrite lookup_insert_ne; [by apply Hback|].
        intros Heq. specialize (Hback _ Hn). congruence.
      * apply list_elem_of_singleton in Hn.
        destruct (Hnf _ _ _ _ (eq_sym Hn)) as [_ ->].
        rewrite lookup_insert_eq. by rewrite Hn.
Qed.

End constructor.

(** ** The invariants hold after every completed operation *)

Section invariants.
Context `{Collaborators} {R : Type} `{RepartitionResolver R}.
Implicit Types (w : World R) (m : Manager R) (key : list byte).

Lemma NewManager_Val_inv (g : Group) (nf : nodeFactory) (urls : list string)
    (rsv : R) m :
  NewManagerWithRepartition g nf urls rsv = Val m →
  ∃ ms, NewManager_loop g nf urls ∅ [] = (nodes m, ms) ∧
        consistent_New ms = Val (hashRing m) ∧
        group m = g ∧ resolver m = rsv ∧ m_nodeFactory m = nf ∧
        nodeName2Epochs m = ∅ ∧ midEpoch m = 0%N.
Proof.
  unfold NewManagerWithRepartition.
  destruct (NewManager_loop g nf urls ∅ []) as [ns ms] eqn:Hloop.
  destruct (consistent_New ms) as [ring|] eqn:Hnew; [|done].
  intros [= <-]. by exists ms.
Qed.

Lemma wf_NewManager (g : Group) (nf : nodeFactory) (urls : list string)
    (rsv : R) m :
  factory_ok nf →
  NewManagerWithRepartition g nf urls rsv = Val m →
  wf m ∧ ring_covers m.
Proof.
  intros Hnf Hnew.
  destruct (NewManager_Val_inv _ _ _ _ _ Hnew)
    as (ms & Hloop & Hring & _ & _ & Hfac & _).
  destruct (NewManager_loop_stores _ _ _ _ _ _ _ Hloop) as (_ & _ & Hin).
  { intros name node Hlk. by rewrite lookup_empty in Hlk. }
  destruct (NewManager_loop_named _ _ _ _ _ _ _ Hnf Hloop) as [Hnamed Hback].
  { intros name n Hlk. by rewrite lookup_empty in Hlk. }
  { intros n Hn. by apply elem_of_nil in Hn. }
  pose proof (consistent_New_from_nonnil _ _ _ Hring) as Hnonnil.
  destruct (consistent_New_from_covers _ _ _ Hring) as [_ Hcov].
  pose proof (consistent_New_from_origin _ _ _ Hring) as Horigin.
  split; [split|].
  - by rewrite Hfac.
  - intros name node Hlk. destruct node as [n|].
    + exists n. split; [done|]. by apply Hnamed.
    + by destruct (Hnonnil _ (Hin _ _ Hlk)).
  - intros key n Hlk. destruct (Horigin _ _ Hlk) as [Hemp|[Hn <-]].
    + simpl in Hemp. by rewrite lookup_empty in Hemp.
    + by apply Hback.
  - intros name [node Hlk]. destruct node as [n|].
    + destruct (Hnamed _ _ Hlk) as [_ <-]. apply Hcov. by eapply Hin.
    + by destruct (Hnonnil _ (Hin _ _ Hlk)).
Qed.

(** What a completed [Add] did. *)
Lemma Add_Val_inv url w w' :
  Add url w = (Val tt, w') →
  (is_Some (nodes (mgr w) !! Url2NodeName url) ∧ w' = w) ∨
  (nodes (mgr w) !! Url2NodeName url = None ∧
   ∃ n, (m_nodeFactory (mgr w) (group (mgr w)) (Url2NodeName url) url).1 = Some n ∧
        nodes (mgr w') = <[Url2NodeName url := Some n]> (nodes (mgr w)) ∧
        members (hashRing (mgr w')) =
          match members (hashRing (mgr w)) !! Member_String n with
          | Some _ => members (hashRing (mgr w))
          | None => <[Member_String n := n]> (members (hashRing (mgr w)))
          end ∧
        group (mgr w') = group (mgr w) ∧
        resolver (mgr w') = resolver (mgr w) ∧
        m_nodeFactory (mgr w') = m_nodeFactory (mgr w) ∧
        nodeName2Epochs (mgr w') = nodeName2Epochs (mgr w) ∧
        midEpoch (mgr w') = midEpoch (mgr w) ∧
        events w' = events w).
Proof.
  destruct (nodes (mgr w) !! Url2NodeName url) as [node|] eqn:Hlk.
  - rewrite (Add_present _ _ _ Hlk). intros [= <-]. left. by split; [eexists|].
  - rewrite (Add_absent _ _ Hlk). unfold hashRing_Add. simpl.
    destruct (m_nodeFactory (mgr w) (group (mgr w)) (Url2NodeName url) url).1
      as [n|] eqn:Hnf; simpl; [|done].
    destruct (members (hashRing (mgr w)) !! Member_String n) eqn:Hring;
      simpl; intros [= <-]; right; (split; [done|]); exists n; simpl;
      by rewrite ?Hring.
Qed.

(** A failed construction that yields nil: the nil entry is stored and the
    ring insertion panics. *)
Lemma Add_absent_nil url w :
  nodes (mgr w) !! Url2NodeName url = None →
  (m_nodeFactory (mgr w) (group (mgr w)) (Url2NodeName url) url).1 = nil_Node →
  Add url w = (Panic, set_nodes (insert (Url2NodeName url) nil_Node) w).
Proof.
  intros Hlk Hnf. rewrite (Add_absent _ _ Hlk), Hnf.
  unfold hashRing_Add. by simpl.
Qed.

Lemma wf_Add url w w' :
  wf (mgr w) → Add url w = (Val tt, w') → wf (mgr w').
Proof.
  intros [Hnf Hnamed Hring] Hadd.
  destruct (Add_Val_inv _ _ _ Hadd)
    as [[_ ->]|(Hlk & n & Hfac & Hnodes & Hmem & _ & _ & Hnf' & _)]; [done|].
  destruct (Hnf _ _ _ _ Hfac) as [Hname Hkey].
  assert (members (hashRing (mgr w)) !! Url2NodeName url = None) as Hfresh.
  { destruct (members (hashRing (mgr w)) !! Url2NodeName url) as [n0|] eqn:Hold;
      [|done].
    apply Hring in Hold. congruence. }
  rewrite Hkey, Hfresh in Hmem.
  split.
  - by rewrite Hnf'.
  - intros name node. rewrite Hnodes.
    destruct (decide (Url2NodeName url = name)) as [<-|Hne].
    + rewrite lookup_insert_eq. intros [= <-]. by exists n.
    + rewrite lookup_insert_ne by done. apply Hnamed.
  - intros key n'. rewrite Hmem, Hnodes.
    destruct (decide (Url2NodeName url = key)) as [<-|Hne].
    + rewrite !lookup_insert_eq. congruence.
    + rewrite !lookup_insert_ne by done. apply Hring.
Qed.

Lemma ring_covers_Add url w w' :
  factory_ok (m_nodeFactory (mgr w)) →
  ring_covers (mgr w) → Add url w = (Val tt, w') → ring_covers (mgr w').
Proof.
  intros Hnf Hcov Hadd.
  destruct (Add_Val_inv _ _ _ Hadd)
    as [[_ ->]|(Hlk & n & Hfac & Hnodes & Hmem & _)]; [done|].
  destruct (Hnf _ _ _ _ Hfac) as [_ Hkey].
  intros name. rewrite Hnodes, Hmem, Hkey.
  destruct (decide (Url2NodeName url = name)) as [<-|Hne].
  - intros _.
    destruct (members (hashRing (mgr w)) !! Url2NodeName url) eqn:Hold.
    + rewrite Hold. by eexists.
    + rewrite lookup_insert_eq. by eexists.
  - rewrite lookup_insert_ne by done. intros Hname.
    destruct (members (hashRing (mgr w)) !! Url2NodeName url) eqn:Hold.
    + by apply Hcov.
    + rewrite lookup_insert_ne by done. by apply Hcov.
Qed.

(** What a completed [Remove] did. *)
Lemma Remove_Val_inv url w w' :
  Remove url w = (Val tt, w') →
  (nodes (mgr w) !! Url2NodeName url = None ∧ w' = w) ∨
  (∃ n, nodes (mgr w) !! Url2NodeName url = Some (Some n) ∧
        w' = mkWorld
               (mkManager (group (mgr w))
                  (delete (Url2NodeName url) (nodes (mgr w)))
                  (consistent_Remove (hashRing (mgr w)) (Url2NodeName url))
                  (resolver (mgr w)) (m_nodeFactory (mgr w))
                  (delete (Url2NodeName url) (nodeName2Epochs (mgr w)))
                  (midEpoch (mgr w)))
               (events w ++ [EvClose n])).
Proof.
  destruct (nodes (mgr w) !! Url2NodeName url) as [[n|]|] eqn:Hlk.
  - rewrite (Remove_present _ _ _ Hlk). intros [= <-]. right. by exists n.
  - by rewrite (Remove_nil _ _ Hlk).
  - rewrite (Remove_absent _ _ Hlk). intros [= <-]. by left.
Qed.

Lemma wf_Remove url w w' :
  wf (mgr w) → Remove url w = (Val tt, w') → wf (mgr w').
Proof.
  intros [Hnf Hnamed Hring] Hrem.
  destruct (Remove_Val_inv _ _ _ Hrem) as [[_ ->]|(n & Hlk & ->)]; [done|].
  split; simpl.
  - done.
  - intros name node Hname. simpl in Hname.
    apply lookup_delete_Some in Hname as [_ Hname]. by apply Hnamed.
  - intros key n' Hkey. simpl in Hkey |- *.
    apply lookup_delete_Some in Hkey as [Hne Hkey].
    rewrite lookup_delete_ne by done. by apply Hring.
Qed.

Lemma ring_covers_Remove url w w' :
  ring_covers (mgr w) → Remove url w = (Val tt, w') → ring_covers (mgr w').
Proof.
  intros Hcov Hrem.
  destruct (Remove_Val_inv _ _ _ Hrem) as [[_ ->]|(n & Hlk & ->)]; [done|].
  intros name. simpl. intros [node Hname].
  apply lookup_delete_Some in Hname as [Hne Hname].
  rewrite lookup_delete_ne by done. apply Hcov. by eexists.
Qed.

End invariants.

(** ** What [Distribute] and [Route] do to the state *)

Section routing.
Context `{Collaborators} {R : Type} `{RepartitionResolver R}.
Implicit Types (w : World R) (m : Manager R) (key : list byte).

Lemma Distribute_cases key w :
  (∃ name, Get (resolver (mgr w)) (Sum64 key) = Some name ∧
           Distribute key w = (Val (nodes_at (mgr w) name), w)) ∨
  (Get (resolver (mgr w)) (Sum64 key) = None ∧
   consistent_LocateKey (hashRing (mgr w)) key = None ∧
   Distribute key w = (Val nil_Node, w)) ∨
  (Get (resolver (mgr w)) (Sum64 key) = None ∧
   ∃ n, consistent_LocateKey (hashRing (mgr w)) key = Some n ∧
        Distribute key w =
          (Val (Some n), set_resolver (λ r, Put r (Sum64 key) (Name n)) w)).
Proof.
  destruct (Get (resolver (mgr w)) (Sum64 key)) as [name|] eqn:Hget.
  - left. exists name. split; [done|]. by apply Distribute_hit.
  - right.
    destruct (consistent_LocateKey (hashRing (mgr w)) key) as [n|] eqn:Hloc.
    + right. split; [done|]. exists n. split; [done|].
      by apply Distribute_miss_ring.
    + left. split_and!; [done..|]. by apply Distribute_miss_none.
Qed.

Lemma Distribute_empty key w :
  ring_in_nodes (mgr w) →
  nodes (mgr w) = ∅ →
  Distribute key w = (Val nil_Node, w).
Proof.
  intros Hring Hempty.
  destruct (Distribute_cases key w)
    as [(name & _ & ->)|[(_ & _ & ->)|(_ & n & Hloc & _)]].
  - unfold nodes_at. by rewrite Hempty, lookup_empty.
  - done.
  - apply LocateKey_Some in Hloc as (owner & _ & Hmem).
    apply Hring in Hmem. by rewrite Hempty, lookup_empty in Hmem.
Qed.

(** With at least one node, the ring lookup yields a node of the Node Set. *)
Lemma LocateKey_live `{!LocateContract} key m :
  nodes_named m → ring_in_nodes m → ring_covers m →
  nodes m ≠ ∅ →
  ∃ n, consistent_LocateKey (hashRing m) key = Some n ∧
       nodes m !! Name n = Some (Some n).
Proof.
  intros Hnamed Hring Hcov Hne.
  destruct (LocateKey_nonempty (hashRing m) key) as [n Hloc].
  { apply map_choose in Hne as (name & node & Hlk).
    destruct (Hcov name) as [n Hmem]; [by eexists|].
    intros Hemp. by rewrite Hemp, lookup_empty in Hmem. }
  exists n. split; [done|].
  apply LocateKey_Some in Hloc as (owner & _ & Hmem).
  pose proof (Hring _ _ Hmem) as Hnode.
  destruct (Hnamed _ _ Hnode) as (n' & [= <-] & Hname & _).
  by rewrite Hname.
Qed.

Lemma Route_unfold key w :
  Route key w =
    match Distribute key w with
    | (Val (Some node), w1) =>
        (Val (Url node),
         mkWorld (mgr w1)
           ((events w1 ++
             [EvRoutes (Space (group (mgr w1))) (Group_String (group (mgr w1)))
                "overall"]) ++
             [EvRoutes (Space (group (mgr w1))) (Group_String (group (mgr w1)))
                (Name node)]))
    | (Val None, w1) => (Val "", w1)
    | (Panic, w1) => (Panic, w1)
    end.
Proof.
  unfold Route. unfold mbind at 1. unfold Go_bind.
  destruct (Distribute key w) as [[[node|]|] w1]; done.
Qed.

Lemma Route_mgr key w :
  mgr (Route key w).2 = mgr (Distribute key w).2.
Proof.
  rewrite Route_unfold.
  destruct (Distribute key w) as [[[node|]|] w1]; done.
Qed.

Lemma Add_resolver url w :
  resolver (mgr (Add url w).2) = resolver (mgr w).
Proof.
  destruct (nodes (mgr w) !! Url2NodeName url) as [node|] eqn:Hlk.
  - by rewrite (Add_present _ _ _ Hlk).
  - rewrite (Add_absent _ _ Hlk). unfold hashRing_Add. simpl.
    by destruct (consistent_Add _ _).
Qed.

Lemma Remove_resolver url w :
  resolver (mgr (Remove url w).2) = resolver (mgr w).
Proof.
  destruct (nodes (mgr w) !! Url2NodeName url) as [[n|]|] eqn:Hlk.
  - by rewrite (Remove_present _ _ _ Hlk).
  - by rewrite (Remove_nil _ _ Hlk).
  - by rewrite (Remove_absent _ _ Hlk).
Qed.

Lemma wf_Distribute key w :
  wf (mgr w) → wf (mgr (Distribute key w).2).
Proof.
  intros Hwf.
  destruct (Distribute_cases key w)
    as [(name & _ & ->)|[(_ & _ & ->)|(_ & n & _ & ->)]]; try done.
  by destruct Hwf.
Qed.

Section retaining.
Context `{!RetainingResolver R}.

(** Once a hashed key has an entry, no call changes it: [Put] is reached
    only when [Get] misses for that same hashed key. *)
Lemma Distribute_keeps_entry key w k name :
  Get (resolver (mgr w)) k = Some name →
  Get (resolver (mgr (Distribute key w).2)) k = Some name.
Proof.
  intros Hentry.
  destruct (Distribute_cases key w)
    as [(name' & _ & ->)|[(_ & _ & ->)|(Hmiss & n & _ & ->)]]; try done.
  simpl. rewrite Get_Put_ne; [done|]. intros <-. congruence.
Qed.

Lemma call_keeps_entry (c : Call) w k name :
  Get (resolver (mgr w)) k = Some name →
  Get (resolver (mgr (call c w).2)) k = Some name.
Proof.
  intros Hentry. destruct c as [url|url|key|key]; simpl.
  - by rewrite Add_resolver.
  - by rewrite Remove_resolver.
  - unfold mbind, Go_bind.
    pose proof (Distribute_keeps_entry key w k name Hentry) as Hkeep.
    by destruct (Distribute key w) as [[node|] w1].
  - unfold mbind, Go_bind.
    pose proof (Distribute_keeps_entry key w k name Hentry) as Hkeep.
    rewrite <- Route_mgr in Hkeep.
    by destruct (Route key w) as [[url|] w1].
Qed.

Lemma calls_keeps_entry (cs : list Call) w k name :
  Get (resolver (mgr w)) k = Some name →
  Get (resolver (mgr (calls cs w).2)) k = Some name.
Proof.
  revert w. induction cs as [|c rest IH]; intros w Hentry; [done|].
  simpl. unfold mbind, Go_bind.
  pose proof (call_keeps_entry c w k name Hentry) as Hkeep.
  destruct (call c w) as [[[]|] w1]; [by apply IH|done].
Qed.

End retaining.

End routing.

(** ** The demo cluster *)

Lemma demo_locate_elem (S : gset string) key n :
  demo_locate S key = Some n → n ∈ S.
Proof.
  unfold demo_locate. intros Hlk.
  apply elem_of_elements. by eapply list_elem_of_lookup_2.
Qed.

Lemma demo_locate_is_Some (S : gset string) key :
  S ≠ ∅ → is_Some (demo_locate S key).
Proof.
  intros Hne. unfold demo_locate. apply lookup_lt_is_Some.
  apply Nat.mod_upper_bound.
  destruct (elements S) eqn:He; [|simpl; lia].
  by apply elements_empty_inv, leibniz_equiv in He.
Qed.

Lemma demo_contract : @LocateContract demo.
Proof. split; [apply demo_locate_elem|apply demo_locate_is_Some]. Qed.

Lemma demo_factory_ok : factory_ok demo_factory.
Proof.
  intros g name url n. unfold demo_factory.
  repeat case_decide; simpl; intros [= <-]; done.
Qed.

Lemma demo_noop_a_built :
  @NewManager demo demo_group demo_factory ["a"] = Val demo_noop_a.
Proof. vm_compute. reflexivity. Qed.

Lemma demo_stateful_a_built :
  @NewManagerWithRepartition demo _ demo_group demo_factory ["a"]
    (mkStateful ∅) = Val demo_stateful_a.
Proof. vm_compute. reflexivity. Qed.

Lemma demo_stateful_ab_built :
  @NewManagerWithRepartition demo _ demo_group demo_factory ["a"; "b"; "a"]
    (mkStateful ∅) = Val demo_stateful_ab.
Proof. vm_compute. reflexivity. Qed.

Lemma demo_stateful_empty_built :
  @NewManagerWithRepartition demo _ demo_group demo_factory []
    (mkStateful ∅) = Val demo_stateful_empty.
Proof. vm_compute. reflexivity. Qed.

Lemma demo_stateful_a_wf : @wf statefulResolver demo_stateful_a.
Proof.
  eapply (@wf_NewManager demo); [apply demo_factory_ok|].
  apply demo_stateful_a_built.
Qed.

Lemma demo_stateful_ab_wf : @wf statefulResolver demo_stateful_ab.
Proof.
  eapply (@wf_NewManager demo); [apply demo_factory_ok|].
  apply demo_stateful_ab_built.
Qed.

Lemma demo_stateful_empty_wf : @wf statefulResolver demo_stateful_empty.
Proof.
  eapply (@wf_NewManager demo); [apply demo_factory_ok|].
  apply demo_stateful_empty_built.
Qed.

(** * Properties of the specification *)

Section routing_properties.
Context `{Collaborators} {R : Type} `{RepartitionResolver R}.
Implicit Types (w : World R) (m : Manager R) (key : list byte).

(** C9 (frame of [Distribute]): for every key, [Distribute] returns without
    panicking and leaves the Node Set, the Hash Ring, the epoch map, the
    middle epoch, the group, the factory and the emitted effects as they
    were.  The resolver is either untouched or, on the ring-lookup path
    (the resolver missed and the ring located a node), it is the old
    resolver after one [Put] of that node's name under the hashed key. *)
Theorem C9_Distribute_frame key w :
  ∃ node w',
    Distribute key w = (Val node, w') ∧
    nodes (mgr w') = nodes (mgr w) ∧
    hashRing (mgr w') = hashRing (mgr w) ∧
    nodeName2Epochs (mgr w') = nodeName2Epochs (mgr w) ∧
    midEpoch (mgr w') = midEpoch (mgr w) ∧
    group (mgr w') = group (mgr w) ∧
    m_nodeFactory (mgr w') = m_nodeFactory (mgr w) ∧
    events w' = events w ∧
    (w' = w ∨
     (Get (resolver (mgr w)) (Sum64 key) = None ∧
      ∃ n, consistent_LocateKey (hashRing (mgr w)) key = Some n ∧
           node = Some n ∧
           resolver (mgr w') = Put (resolver (mgr w)) (Sum64 key) (Name n))).
Proof.
  destruct (Distribute_cases key w)
    as [(name & _ & ->)|[(_ & _ & ->)|(Hmiss & n & Hloc & ->)]].
  - eexists _, _. split; [done|]. split_and!; try done. by left.
  - eexists _, _. split; [done|]. split_and!; try done. by left.
  - eexists _, _. split; [done|]. split_and!; try done.
    right. split; [done|]. by exists n.
Qed.

(** C4 (empty cluster): on a manager whose Node Set is empty, [Distribute]
    returns nil for every key and [Route] returns the empty string; neither
    changes anything.  The manager is one whose ring members are nodes of
    its Node Set, as every manager built by the constructor is. *)
Theorem C4_empty_cluster key w :
  ring_in_nodes (mgr w) →
  nodes (mgr w) = ∅ →
  Distribute key w = (Val nil_Node, w) ∧ Route key w = (Val "", w).
Proof.
  intros Hring Hempty.
  pose proof (Distribute_empty key w Hring Hempty) as Hdist.
  split; [done|]. by rewrite Route_unfold, Hdist.
Qed.

(** C8 (determinism): the node [Distribute] returns depends on the manager
    state and the key only, so two calls on the same state agree; and a
    call repeated right after the first one returns the same node again,
    whether it is served by the ring or by the resolver entry the first
    call left behind. *)
Theorem C8_Distribute_deterministic `{!SoundResolver R} key w :
  wf (mgr w) →
  (∀ w2, mgr w2 = mgr w → (Distribute key w2).1 = (Distribute key w).1) ∧
  (Distribute key (Distribute key w).2).1 = (Distribute key w).1.
Proof.
  intros [_ Hnamed Hring]. split.
  - intros w2 Hsame. unfold Distribute. go_simpl. rewrite Hsame.
    destruct (Get (resolver (mgr w)) (Sum64 key)); [done|].
    by destruct (consistent_LocateKey (hashRing (mgr w)) key).
  - destruct (Distribute_cases key w)
      as [(name & Hhit & Hd)|[(Hmiss & Hloc & Hd)|(Hmiss & n & Hloc & Hd)]];
      rewrite Hd; simpl; [by rewrite Hd..|].
    set (w1 := set_resolver (λ r, Put r (Sum64 key) (Name n)) w).
    destruct (Distribute_cases key w1)
      as [(name & Hhit & Hd1)|[(_ & Hloc1 & _)|(_ & n1 & Hloc1 & Hd1)]].
    + rewrite Hd1. simpl. apply Get_Put_sound in Hhit as ->.
      apply LocateKey_Some in Hloc as (owner & _ & Hmem).
      pose proof (Hring _ _ Hmem) as Hnode.
      destruct (Hnamed _ _ Hnode) as (n' & [= <-] & Hname & _).
      unfold nodes_at. simpl. by rewrite Hname, Hnode.
    + simpl in Hloc1. congruence.
    + rewrite Hd1. simpl in *. congruence.
Qed.

End routing_properties.

(** C10 ([NewManager] wires the no-op resolver): the manager [NewManager]
    returns carries the no-op resolver, and on every state of a manager with
    that resolver the lookup misses for every key, so [Distribute] returns
    exactly what the Hash Ring locates and leaves the state as it was. *)
Theorem C10_NewManager_noop `{Collaborators} (g : Group) (nf : nodeFactory)
    (urls : list string) (m : Manager noopRepartitionResolver) :
  NewManager g nf urls = Val m →
  resolver m = noop ∧
  ∀ (w : World noopRepartitionResolver) (key : list byte),
    Get (resolver (mgr w)) (Sum64 key) = None ∧
    Distribute key w = (Val (consistent_LocateKey (hashRing (mgr w)) key), w).
Proof.
  intros Hnew. split; [by destruct (resolver m)|].
  intros w key. split; [done|].
  destruct (Distribute_cases key w)
    as [(name & Hhit & _)|[(_ & Hloc & ->)|(_ & n & Hloc & ->)]].
  - discriminate Hhit.
  - by rewrite Hloc.
  - rewrite Hloc. by destruct w as [[]].
Qed.

(** ** Counting the nodes of a snapshot *)

Lemma count_named_none (name : string) (l : list Node) :
  (∀ node, node ∈ l → Name <$> node ≠ Some name) → count_named name l = 0.
Proof.
  unfold count_named. induction l as [|node l IH]; intros Hnone; [done|].
  rewrite filter_cons_False.
  - apply IH. intros node' Hin. apply Hnone. by apply elem_of_cons; right.
  - apply Hnone. by apply elem_of_cons; left.
Qed.

Lemma count_named_Permutation (name : string) (l1 l2 : list Node) :
  l1 ≡ₚ l2 → count_named name l1 = count_named name l2.
Proof. intros Hperm. unfold count_named. by rewrite Hperm. Qed.

Lemma count_named_unique {R : Type} (m : Manager R) (name : string) (n : NodeObj) :
  nodes_named m →
  nodes m !! name = Some (Some n) →
  count_named name (map_to_list (nodes m)).*2 = 1.
Proof.
  intros Hnamed Hlk.
  rewrite <- (count_named_Permutation name _ _
    (fmap_Permutation snd _ _ (map_to_list_delete _ _ _ Hlk))).
  destruct (Hnamed _ _ Hlk) as (n' & [= <-] & Hname & _).
  unfold count_named. simpl. rewrite filter_cons_True by (simpl; congruence).
  simpl. f_equal. apply count_named_none.
  intros node Hin. apply list_elem_of_fmap in Hin as ([key node'] & -> & Hin).
  apply elem_of_map_to_list in Hin. apply lookup_delete_Some in Hin as [Hne Hin].
  destruct (Hnamed _ _ Hin) as (n1 & -> & Hname1 & _). simpl. congruence.
Qed.

Section membership_properties.
Context `{Collaborators} {R : Type} `{RepartitionResolver R}.
Implicit Types (w : World R) (m : Manager R) (key : list byte).

(** [Add] returns whenever the name is already held or the factory yields
    a node. *)
Lemma Add_returns (url : string) w :
  is_Some (nodes (mgr w) !! Url2NodeName url) ∨
  (m_nodeFactory (mgr w) (group (mgr w)) (Url2NodeName url) url).1 ≠ nil_Node →
  ∃ w1, Add url w = (Val tt, w1).
Proof.
  intros Hok.
  destruct (nodes (mgr w) !! Url2NodeName url) as [old|] eqn:Hlk.
  - exists w. by eapply Add_present.
  - destruct Hok as [[old Hold]|Hnn]; [done|].
    rewrite (Add_absent _ _ Hlk). unfold hashRing_Add. simpl.
    destruct (m_nodeFactory (mgr w) (group (mgr w)) (Url2NodeName url) url).1
      as [n|]; [|done]. simpl.
    destruct (members (hashRing (mgr w)) !! Member_String n); by eexists.
Qed.

(** C5, as the code has it (idempotent Add and Remove), on a well-formed
    manager.  When the derived name is already held, or the factory yields
    a node for it, [Add(url)] returns with a node stored under that name, a
    second [Add(url)] returns without changing anything, and the [List()]
    snapshot holds exactly one node carrying the name.  When the name is
    absent and the factory yields nil, the first [Add(url)] panics, the
    second returns without changing anything, and the snapshot holds no
    node carrying the name.  On any manager a second [Remove(url)] leaves
    the state exactly as the first one left it: the first removes a node
    held under the name and returns, after which the name is absent and
    the second returns without change; on an absent name both return
    without change. *)
Theorem C5_idempotent_amended (url : string) w :
  wf (mgr w) →
  (is_Some (nodes (mgr w) !! Url2NodeName url) ∨
   (m_nodeFactory (mgr w) (group (mgr w)) (Url2NodeName url) url).1 ≠ nil_Node →
   ∃ w1 n,
     Add url w = (Val tt, w1) ∧
     nodes (mgr w1) !! Url2NodeName url = Some (Some n) ∧
     Name n = Url2NodeName url ∧
     Add url w1 = (Val tt, w1) ∧
     ∃ l, List w1 = (Val l, w1) ∧ count_named (Url2NodeName url) l = 1) ∧
  (nodes (mgr w) !! Url2NodeName url = None →
   (m_nodeFactory (mgr w) (group (mgr w)) (Url2NodeName url) url).1 = nil_Node →
   (Add url w).1 = Panic ∧
   Add url (Add url w).2 = (Val tt, (Add url w).2) ∧
   ∃ l, List (Add url w).2 = (Val l, (Add url w).2) ∧
        count_named (Url2NodeName url) l = 0) ∧
  (∀ w0 : World R,
     (Remove url (Remove url w0).2).2 = (Remove url w0).2 ∧
     (∀ n, nodes (mgr w0) !! Url2NodeName url = Some (Some n) →
        ∃ w2, Remove url w0 = (Val tt, w2) ∧
              nodes (mgr w2) !! Url2NodeName url = None ∧
              Remove url w2 = (Val tt, w2)) ∧
     (nodes (mgr w0) !! Url2NodeName url = None →
        Remove url w0 = (Val tt, w0))).
Proof.
  intros Hwf. split_and!.
  - intros Hok. destruct (Add_returns url w Hok) as [w1 Hadd].
    pose proof (wf_Add _ _ _ Hwf Hadd) as [_ Hnamed1 _].
    assert (is_Some (nodes (mgr w1) !! Url2NodeName url)) as [node Hlk].
    { destruct (Add_Val_inv _ _ _ Hadd)
        as [[Hpresent ->]|(_ & n & _ & -> & _)]; [done|].
      rewrite lookup_insert_eq. by eexists. }
    destruct (Hnamed1 _ _ Hlk) as (n & -> & Hname & _).
    exists w1, n. split_and!; try done; [by eapply Add_present|].
    eexists. split; [reflexivity|]. by eapply count_named_unique.
  - intros Hlk Hnil. destruct Hwf as [_ Hnamed _].
    rewrite (Add_absent_nil _ _ Hlk Hnil). simpl. split_and!.
    + done.
    + eapply Add_present. simpl. apply lookup_insert_eq.
    + eexists. split; [reflexivity|]. apply count_named_none.
      intros node Hin. apply list_elem_of_fmap in Hin as ([k node'] & -> & Hin).
      apply elem_of_map_to_list in Hin. simpl in Hin |- *.
      destruct (decide (Url2NodeName url = k)) as [<-|Hne].
      * rewrite lookup_insert_eq in Hin. by injection Hin as <-.
      * rewrite lookup_insert_ne in Hin by done.
        destruct (Hnamed _ _ Hin) as (n & -> & Hname & _). simpl. congruence.
  - intros w0.
    destruct (nodes (mgr w0) !! Url2NodeName url) as [[n|]|] eqn:Hlk.
    + rewrite (Remove_present _ _ _ Hlk). simpl.
      assert (∀ w2 : World R,
                nodes (mgr w2) !! Url2NodeName url = None →
                Remove url w2 = (Val tt, w2)) as Habsent
        by (intros w2; apply Remove_absent).
      split_and!.
      * rewrite Habsent; [done|]. simpl. apply lookup_delete_eq.
      * intros n' _. eexists. split; [done|]. simpl.
        split; [apply lookup_delete_eq|].
        apply Habsent. simpl. apply lookup_delete_eq.
      * done.
    + rewrite (Remove_nil _ _ Hlk). simpl. rewrite (Remove_nil _ _ Hlk).
      by split_and!.
    + rewrite (Remove_absent _ _ Hlk). simpl. rewrite (Remove_absent _ _ Hlk).
      by split_and!.
Qed.

(** C6, as the code has it ([Remove]): when the name derived from [url]
    holds a node in the Node Set, [Remove(url)] closes that node, deletes
    the name from the Node Set, from the epoch map and from the Hash Ring,
    and touches nothing else; when the name holds a nil entry, [Remove]
    panics at [Close] and changes nothing; when the name is absent,
    [Remove] returns and changes nothing. *)
Theorem C6_Remove_amended (url : string) w :
  (∀ n, nodes (mgr w) !! Url2NodeName url = Some (Some n) →
     ∃ w', Remove url w = (Val tt, w') ∧
           events w' = (events w ++ [EvClose n])%list ∧
           nodes (mgr w') = delete (Url2NodeName url) (nodes (mgr w)) ∧
           nodeName2Epochs (mgr w') =
             delete (Url2NodeName url) (nodeName2Epochs (mgr w)) ∧
           members (hashRing (mgr w')) =
             delete (Url2NodeName url) (members (hashRing (mgr w))) ∧
           nodes (mgr w') !! Url2NodeName url = None ∧
           nodeName2Epochs (mgr w') !! Url2NodeName url = None ∧
           members (hashRing (mgr w')) !! Url2NodeName url = None ∧
           resolver (mgr w') = resolver (mgr w) ∧
           group (mgr w') = group (mgr w) ∧
           m_nodeFactory (mgr w') = m_nodeFactory (mgr w) ∧
           midEpoch (mgr w') = midEpoch (mgr w)) ∧
  (nodes (mgr w) !! Url2NodeName url = Some nil_Node →
     Remove url w = (Panic, w)) ∧
  (nodes (mgr w) !! Url2NodeName url = None → Remove url w = (Val tt, w)).
Proof.
  split_and!; [|apply Remove_nil|apply Remove_absent].
  intros n Hlk. eexists. split; [by apply Remove_present|]. simpl.
  by rewrite !lookup_delete_eq.
Qed.

(** C7 (Node Set / Hash Ring consistency): a manager returned by the
    constructor has a ring member for every name of its Node Set, and a
    completed [Add] or [Remove] on a manager with that property yields a
    manager with that property.  Nodes are those of a factory that gives
    each node the name it was asked to build. *)
Theorem C7_ring_covers_invariant :
  (∀ (g : Group) (nf : nodeFactory) (urls : list string) (rsv : R) m,
     factory_ok nf →
     NewManagerWithRepartition g nf urls rsv = Val m → ring_covers m) ∧
  (∀ (url : string) w w',
     factory_ok (m_nodeFactory (mgr w)) → ring_covers (mgr w) →
     Add url w = (Val tt, w') → ring_covers (mgr w')) ∧
  (∀ (url : string) w w',
     ring_covers (mgr w) →
     Remove url w = (Val tt, w') → ring_covers (mgr w')).
Proof.
  split_and!.
  - intros g nf urls rsv m Hnf Hnew. by eapply wf_NewManager.
  - intros url w w'. apply ring_covers_Add.
  - intros url w w'. apply ring_covers_Remove.
Qed.

End membership_properties.

(** ** Where the entries built by the constructor come from *)

Lemma NewManager_loop_origin `{Collaborators} (g : Group) (nf : nodeFactory)
    (urls : list string) (ns ns' : gmap string Node) (ms ms' : list Node) :
  NewManager_loop g nf urls ns ms = (ns', ms') →
  ∀ name node, ns' !! name = Some node →
    ns !! name = Some node ∨
    ∃ url, url ∈ urls ∧ Url2NodeName url = name ∧ node = (nf g name url).1.
Proof.
  revert ns ms. induction urls as [|url rest IH]; intros ns ms Hloop name node Hlk.
  - simpl in Hloop. injection Hloop as <- <-. by left.
  - simpl in Hloop.
    destruct (ns !! Url2NodeName url) as [node0|] eqn:Hold.
    + destruct (IH _ _ Hloop _ _ Hlk) as [Hns|(url' & Hin & Hname & Hnode)];
        [by left|].
      right. exists url'. split; [by apply elem_of_cons; right|done].
    + destruct (IH _ _ Hloop _ _ Hlk) as [Hns|(url' & Hin & Hname & Hnode)].
      * destruct (decide (Url2NodeName url = name)) as [<-|Hne].
        -- rewrite lookup_insert_eq in Hns. injection Hns as <-.
           right. exists url. split; [by apply elem_of_cons; left|done].
        -- rewrite lookup_insert_ne in Hns by done. by left.
      * right. exists url'. split; [by apply elem_of_cons; right|done].
Qed.

Section code_behaviour.
Context `{Collaborators} {R : Type} `{RepartitionResolver R}.
Implicit Types (w : World R) (m : Manager R) (key : list byte).

(** C1, as the code has it (stale resolver entry): when the resolver entry
    of a key names a node that is no longer in the Node Set, [Distribute]
    returns nil — the Node Set lookup of the cached name — and changes
    nothing: no ring lookup is made and the resolver keeps the stale entry.
    The fresh ring lookup takes place only when the resolver reports no
    entry for the key: it then returns a node that is currently in the Node
    Set and records its name in the resolver, and it returns nil only when
    the Node Set is empty. *)
Theorem C1_stale_entry_amended `{!LocateContract} key w :
  (∀ name, Get (resolver (mgr w)) (Sum64 key) = Some name →
           nodes (mgr w) !! name = None →
           Distribute key w = (Val nil_Node, w)) ∧
  (Get (resolver (mgr w)) (Sum64 key) = None →
   wf (mgr w) → ring_covers (mgr w) →
   (nodes (mgr w) = ∅ → Distribute key w = (Val nil_Node, w)) ∧
   (nodes (mgr w) ≠ ∅ →
    ∃ n, nodes (mgr w) !! Name n = Some (Some n) ∧
         Distribute key w =
           (Val (Some n), set_resolver (λ r, Put r (Sum64 key) (Name n)) w))).
Proof.
  split.
  - intros name Hhit Hgone. rewrite (Distribute_hit _ _ _ Hhit).
    unfold nodes_at. by rewrite Hgone.
  - intros Hmiss [_ Hnamed Hring] Hcov. split.
    + intros Hempty. by apply Distribute_empty.
    + intros Hne.
      destruct (LocateKey_live key (mgr w) Hnamed Hring Hcov Hne)
        as (n & Hloc & Hlive).
      exists n. split; [done|]. by apply Distribute_miss_ring.
Qed.

(** C2, as the code has it (factory error): the error the node factory
    returns is discarded.  For a URL whose derived name is not yet in the
    Node Set, [Add] stores the value the factory returned under that name
    whatever the error says: a node is also made a ring member and [Add]
    completes, while nil makes the ring insertion panic with the nil entry
    left in the Node Set.  The constructor stores the factory's value in
    the same way, and it completes only when every stored value is a node:
    each URL's name then holds the node the factory returned for a URL of
    that name, and that node's ring key has a member. *)
Theorem C2_factory_error_amended :
  (∀ (url : string) w (n : NodeObj) (err : error),
     nodes (mgr w) !! Url2NodeName url = None →
     m_nodeFactory (mgr w) (group (mgr w)) (Url2NodeName url) url = (Some n, err) →
     ∃ w', Add url w = (Val tt, w') ∧
           nodes (mgr w') !! Url2NodeName url = Some (Some n) ∧
           is_Some (members (hashRing (mgr w')) !! Member_String n)) ∧
  (∀ (url : string) w (err : error),
     nodes (mgr w) !! Url2NodeName url = None →
     m_nodeFactory (mgr w) (group (mgr w)) (Url2NodeName url) url = (nil_Node, err) →
     Add url w = (Panic, set_nodes (insert (Url2NodeName url) nil_Node) w)) ∧
  (∀ (g : Group) (nf : nodeFactory) (urls : list string) (rsv : R) m,
     NewManagerWithRepartition g nf urls rsv = Val m →
     ∀ url, url ∈ urls →
       ∃ n url0, url0 ∈ urls ∧ Url2NodeName url0 = Url2NodeName url ∧
                 (nf g (Url2NodeName url) url0).1 = Some n ∧
                 nodes m !! Url2NodeName url = Some (Some n) ∧
                 is_Some (members (hashRing m) !! Member_String n)).
Proof.
  split_and!.
  - intros url w n err Hlk Hnf.
    rewrite (Add_absent _ _ Hlk), Hnf. unfold hashRing_Add. simpl.
    destruct (members (hashRing (mgr w)) !! Member_String n) as [n0|] eqn:Hold.
    + eexists. split; [done|]. simpl. rewrite lookup_insert_eq, Hold.
      split; [done|]. by eexists.
    + eexists. split; [done|]. simpl. rewrite !lookup_insert_eq.
      split; [done|]. by eexists.
  - intros url w err Hlk Hnf. apply Add_absent_nil; [done|]. by rewrite Hnf.
  - intros g nf urls rsv m Hnew url Hurl.
    destruct (NewManager_Val_inv _ _ _ _ _ Hnew) as (ms & Hloop & Hring & _).
    destruct (NewManager_loop_stores _ _ _ _ _ _ _ Hloop) as (_ & Hurls & Hin).
    { intros name node Hlk. by rewrite lookup_empty in Hlk. }
    destruct (Hurls _ Hurl) as [node Hlk].
    pose proof (consistent_New_from_nonnil _ _ _ Hring _ (Hin _ _ Hlk)) as Hnn.
    destruct node as [n|]; [|done].
    destruct (NewManager_loop_origin _ _ _ _ _ _ _ Hloop _ _ Hlk)
      as [Hemp|(url0 & Hin0 & Hname0 & Hnode0)].
    { by rewrite lookup_empty in Hemp. }
    exists n, url0. split_and!; try done.
    destruct (consistent_New_from_covers _ _ _ Hring) as [_ Hcov].
    apply Hcov. by eapply Hin.
Qed.

(** C3, as the code has it (stickiness): with a resolver that retains its
    entries, once [Distribute(k)] has returned node X, a later
    [Distribute(k)] — after any sequence of [Add], [Remove], [Distribute]
    and [Route] calls — returns X again and changes nothing, as long as X is
    still the entry of the Node Set under its name. *)
Theorem C3_stickiness_amended `{!RetainingResolver R} key w w1 (X : NodeObj)
    (cs : list Call) (r : result unit) w2 :
  wf (mgr w) →
  Distribute key w = (Val (Some X), w1) →
  calls cs w1 = (r, w2) →
  nodes (mgr w2) !! Name X = Some (Some X) →
  Distribute key w2 = (Val (Some X), w2).
Proof.
  intros [_ Hnamed _] Hfirst Hcalls Hstill.
  assert (Get (resolver (mgr w1)) (Sum64 key) = Some (Name X)) as Hentry.
  { destruct (Distribute_cases key w)
      as [(name & Hhit & Hd)|[(_ & _ & Hd)|(_ & n & _ & Hd)]];
      rewrite Hd in Hfirst.
    - injection Hfirst as Hnode <-. unfold nodes_at in Hnode.
      destruct (nodes (mgr w) !! name) as [node|] eqn:Hlk; [|done].
      simpl in Hnode. subst node.
      destruct (Hnamed _ _ Hlk) as (n' & [= <-] & Hname & _). by rewrite Hname.
    - done.
    - injection Hfirst as -> <-. simpl. apply Get_Put_eq. }
  pose proof (calls_keeps_entry cs w1 _ _ Hentry) as Hkeep.
  rewrite Hcalls in Hkeep. simpl in Hkeep.
  rewrite (Distribute_hit _ _ _ Hkeep). unfold nodes_at. by rewrite Hstill.
Qed.

End code_behaviour.

(** * The properties on the demo cluster *)

Section demo_runs.
#[local] Existing Instance demo.
#[local] Existing Instance demo_contract.

Lemma demo_Add_b :
  Add "b" (mkWorld demo_stateful_a []) = (Val tt, mkWorld demo_stateful_ab []).
Proof. vm_compute. reflexivity. Qed.

(** C1 fails as stated: in the cluster [{a, b}] the key is first routed to
    [b]; after [Remove("b")] the resolver still names [b], node [a] is live
    in the Node Set and in the ring, and yet [Distribute] returns nil and
    leaves the stale entry in place. *)
Lemma C1_counterexample :
  let w0 := mkWorld demo_stateful_ab [] in
  let w1 := (Distribute key1 w0).2 in
  let w2 := (Remove "b" w1).2 in
  (Distribute key1 w0).1 = Val (Some node_b) ∧
  (Remove "b" w1).1 = Val tt ∧
  Get (resolver (mgr w2)) (Sum64 key1) = Some "b" ∧
  nodes (mgr w2) !! "b" = None ∧
  nodes (mgr w2) !! "a" = Some (Some node_a) ∧
  members (hashRing (mgr w2)) !! "a" = Some node_a ∧
  (Distribute key1 w2).1 = Val nil_Node ∧
  Get (resolver (mgr (Distribute key1 w2).2)) (Sum64 key1) = Some "b".
Proof. vm_compute. repeat split. Qed.

(** C2 fails as stated: the factory reports an error for ["down"] and for
    ["half"].  [Add("down")] panics and leaves a nil entry in the Node Set;
    [Add("half")] stores the node in the Node Set and in the ring; and the
    constructor does the same with ["half"] and panics on ["down"]. *)
Lemma C2_counterexample :
  let w := mkWorld demo_stateful_a [] in
  let half := mkNode "half" "half" "half" in
  (demo_factory demo_group "down" "down").2 = Some "dial failed" ∧
  (Add "down" w).1 = Panic ∧
  nodes (mgr (Add "down" w).2) !! "down" = Some nil_Node ∧
  (demo_factory demo_group "half" "half").2 = Some "slow start" ∧
  (Add "half" w).1 = Val tt ∧
  nodes (mgr (Add "half" w).2) !! "half" = Some (Some half) ∧
  members (hashRing (mgr (Add "half" w).2)) !! "half" = Some half ∧
  (∃ m, NewManagerWithRepartition demo_group demo_factory ["a"; "half"]
          (mkStateful ∅) = Val m ∧
        nodes m !! "half" = Some (Some half) ∧
        members (hashRing m) !! "half" = Some half) ∧
  NewManagerWithRepartition demo_group demo_factory ["a"; "down"]
    (mkStateful ∅) = Panic.
Proof.
  vm_compute. split_and!; try reflexivity.
  eexists. split_and!; reflexivity.
Qed.

(** C3 fails as stated: on the manager [NewManager] builds for [{a}] the key
    is routed to [a]; after [Add("b")], with [a] still in the Node Set, the
    same key is routed to [b]. *)
Lemma C3_counterexample :
  let w0 := mkWorld demo_noop_a [] in
  let w1 := (Distribute key1 w0).2 in
  let w2 := (Add "b" w1).2 in
  NewManager demo_group demo_factory ["a"] = Val demo_noop_a ∧
  (Distribute key1 w0).1 = Val (Some node_a) ∧
  (Add "b" w1).1 = Val tt ∧
  nodes (mgr w2) !! "a" = Some (Some node_a) ∧
  (Distribute key1 w2).1 = Val (Some node_b) ∧
  (Distribute key1 w2).1 ≠ Val (Some node_a).
Proof. vm_compute. split_and!; try reflexivity. discriminate. Qed.

(** The amended C1 on the cluster [{a}] after [b] was removed with a stale
    entry for the key, and on the fresh cluster [{a, b}]. *)
Lemma C1_witness :
  let w2 := (Remove "b" (Distribute key1 (mkWorld demo_stateful_ab [])).2).2 in
  Distribute key1 w2 = (Val nil_Node, w2) ∧
  ∃ n, nodes demo_stateful_ab !! Name n = Some (Some n) ∧
       Distribute key1 (mkWorld demo_stateful_ab []) =
         (Val (Some n),
          set_resolver (λ r, Put r (Sum64 key1) (Name n))
            (mkWorld demo_stateful_ab [])).
Proof.
  intros w2. split.
  - apply (proj1 (C1_stale_entry_amended key1 w2) "b"); reflexivity.
  - apply (proj2 (C1_stale_entry_amended key1 (mkWorld demo_stateful_ab []))).
    + reflexivity.
    + apply demo_stateful_ab_wf.
    + eapply wf_NewManager; [apply demo_factory_ok|apply demo_stateful_ab_built].
    + intros Hemp. by apply (f_equal (λ ns, ns !! "a")) in Hemp.
Defined.

Lemma C2_witness :
  let w := mkWorld demo_stateful_a [] in
  (∃ w', Add "half" w = (Val tt, w') ∧
         nodes (mgr w') !! "half" = Some (Some (mkNode "half" "half" "half")) ∧
         is_Some (members (hashRing (mgr w')) !! "half")) ∧
  Add "down" w = (Panic, set_nodes (insert "down" nil_Node) w) ∧
  ∃ n url0, url0 ∈ ["a"; "b"; "a"] ∧ url0 = "b" ∧
            (demo_factory demo_group "b" url0).1 = Some n ∧
            nodes demo_stateful_ab !! "b" = Some (Some n) ∧
            is_Some (members (hashRing demo_stateful_ab) !! Member_String n).
Proof.
  intros w.
  destruct (C2_factory_error_amended (R:=statefulResolver))
    as (Hnode & Hnil & Hnew).
  split_and!.
  - apply (Hnode "half" w (mkNode "half" "half" "half") (Some "slow start"));
      reflexivity.
  - apply (Hnil "down" w (Some "dial failed")); reflexivity.
  - apply (Hnew demo_group demo_factory ["a"; "b"; "a"] (mkStateful ∅)
             demo_stateful_ab demo_stateful_ab_built "b").
    apply elem_of_cons; right. apply elem_of_cons; by left.
Defined.

Lemma C3_witness :
  let w := mkWorld demo_stateful_a [] in
  let w1 := (Distribute key1 w).2 in
  let w2 := (calls [CallAdd "b"; CallDistribute [x01; x02]] w1).2 in
  nodes (mgr w2) !! "b" = Some (Some node_b) ∧
  Distribute key1 w2 = (Val (Some node_a), w2).
Proof.
  intros w w1 w2. split; [reflexivity|].
  apply (C3_stickiness_amended key1 w w1 node_a
           [CallAdd "b"; CallDistribute [x01; x02]] (Val tt) w2).
  - apply demo_stateful_a_wf.
  - reflexivity.
  - reflexivity.
  - reflexivity.
Defined.

Lemma C4_witness :
  let w := mkWorld demo_stateful_empty [] in
  nodes (mgr w) = ∅ ∧
  Distribute key1 w = (Val nil_Node, w) ∧ Route key1 w = (Val "", w).
Proof.
  intros w. split; [reflexivity|].
  apply (C4_empty_cluster key1 w).
  - apply demo_stateful_empty_wf.
  - reflexivity.
Defined.

(** C5 fails as stated: the factory yields nil for ["down"]; the first
    [Add("down")] panics, the second returns, and the snapshot then holds
    two entries, none of them a node named ["down"]. *)
Lemma C5_counterexample :
  let w := mkWorld demo_stateful_a [] in
  let w1 := (Add "down" w).2 in
  let w2 := (Add "down" w1).2 in
  (Add "down" w).1 = Panic ∧
  (Add "down" w1).1 = Val tt ∧
  ∃ l, (List w2).1 = Val l ∧ length l = 2 ∧ count_named "down" l = 0.
Proof.
  intros w w1 w2. split_and!; [reflexivity..|].
  eexists. split; [reflexivity|]. split; vm_compute; reflexivity.
Qed.

Lemma C5_witness :
  let w := mkWorld demo_stateful_a [] in
  (∃ w1 n,
     Add "b" w = (Val tt, w1) ∧
     nodes (mgr w1) !! "b" = Some (Some n) ∧ Name n = "b" ∧
     Add "b" w1 = (Val tt, w1) ∧
     ∃ l, List w1 = (Val l, w1) ∧ count_named "b" l = 1) ∧
  ((Add "down" w).1 = Panic ∧
   Add "down" (Add "down" w).2 = (Val tt, (Add "down" w).2) ∧
   ∃ l, List (Add "down" w).2 = (Val l, (Add "down" w).2) ∧
        count_named "down" l = 0).
Proof.
  intros w.
  pose proof (C5_idempotent_amended "b" w demo_stateful_a_wf)
    as (Hnode & _ & _).
  pose proof (C5_idempotent_amended "down" w demo_stateful_a_wf)
    as (_ & Hnil & _).
  split.
  - apply Hnode. right. discriminate.
  - apply Hnil; reflexivity.
Defined.

(** C6 fails as stated: after the panicked [Add("down")] the name ["down"]
    is present in the Node Set with a nil entry; [Remove("down")] panics,
    closes nothing and the name stays in the Node Set. *)
Lemma C6_counterexample :
  let w := (Add "down" (mkWorld demo_stateful_a [])).2 in
  is_Some (nodes (mgr w) !! "down") ∧
  (Remove "down" w).1 = Panic ∧
  nodes (mgr (Remove "down" w).2) !! "down" = Some nil_Node ∧
  events (Remove "down" w).2 = [].
Proof.
  intros w. split_and!; [|reflexivity..]. by exists nil_Node.
Qed.

Lemma C6_witness :
  let w := mkWorld demo_stateful_ab [] in
  let w0 := (Add "down" (mkWorld demo_stateful_a [])).2 in
  (∃ w', Remove "a" w = (Val tt, w') ∧
         events w' = [EvClose node_a] ∧
         nodes (mgr w') !! "a" = None ∧
         members (hashRing (mgr w')) !! "a" = None) ∧
  Remove "down" w0 = (Panic, w0) ∧
  Remove "c" w = (Val tt, w).
Proof.
  intros w w0.
  assert (nodes (mgr w) !! Url2NodeName "a" = Some (Some node_a)) as Hlk
    by reflexivity.
  destruct (proj1 (C6_Remove_amended "a" w) node_a Hlk)
    as (w' & Hrem & Hev & _ & _ & _ & Hnodes & _ & Hring & _).
  split_and!.
  - exists w'. by split_and!.
  - apply (C6_Remove_amended "down" w0). reflexivity.
  - apply (C6_Remove_amended "c" w). reflexivity.
Defined.

Lemma C7_witness :
  ring_covers demo_stateful_ab ∧
  ring_covers (mgr (Remove "a" (mkWorld demo_stateful_ab [])).2).
Proof.
  destruct (C7_ring_covers_invariant (R:=statefulResolver))
    as (Hnew & Hadd & Hrem).
  assert (ring_covers demo_stateful_a) as Ha.
  { apply (Hnew demo_group demo_factory ["a"] (mkStateful ∅));
      [apply demo_factory_ok|apply demo_stateful_a_built]. }
  assert (ring_covers demo_stateful_ab) as Hab.
  { apply (Hadd "b" (mkWorld demo_stateful_a []) (mkWorld demo_stateful_ab []));
      [apply demo_factory_ok|exact Ha|apply demo_Add_b]. }
  split; [exact Hab|].
  apply (Hrem "a" (mkWorld demo_stateful_ab [])); [exact Hab|reflexivity].
Defined.

Lemma C8_witness :
  let w := mkWorld demo_stateful_ab [] in
  (Distribute key1 (Distribute key1 w).2).1 = (Distribute key1 w).1.
Proof.
  intros w. apply (C8_Distribute_deterministic key1 w).
  apply demo_stateful_ab_wf.
Defined.

Lemma C10_witness :
  let w := mkWorld demo_noop_a [] in
  NewManager demo_group demo_factory ["a"] = Val demo_noop_a ∧
  Get (resolver (mgr w)) (Sum64 key1) = None ∧
  Distribute key1 w = (Val (consistent_LocateKey (hashRing (mgr w)) key1), w).
Proof.
  intros w. split; [apply demo_noop_a_built|].
  apply (C10_NewManager_noop demo_group demo_factory ["a"] demo_noop_a).
  apply demo_noop_a_built.
Defined.

End demo_runs.

(** * Further properties of the manager *)

(** ** [Add], [Remove] and [Get] together *)

Section lookup_properties.
Context `{Collaborators} {R : Type} `{RepartitionResolver R}.
Implicit Types (w : World R) (m : Manager R) (key : list byte).

Lemma ManagerGet_unfold url w :
  ManagerGet url w = (Val (nodes_at (mgr w) (Url2NodeName url)), w).
Proof. reflexivity. Qed.

(** X1 ([Add] then [Get], first writer wins): after an [Add(url)] that
    returned, [Get(url)] yields the node that was already stored under the
    derived name if there was one, and otherwise the node the factory just
    built, which is not nil; [Get] changes nothing. *)
Theorem X1_Add_then_Get (url : string) w w' :
  Add url w = (Val tt, w') →
  ManagerGet url w' =
    (Val (match nodes (mgr w) !! Url2NodeName url with
          | Some old => old
          | None => (m_nodeFactory (mgr w) (group (mgr w)) (Url2NodeName url) url).1
          end), w') ∧
  (nodes (mgr w) !! Url2NodeName url = None →
   (m_nodeFactory (mgr w) (group (mgr w)) (Url2NodeName url) url).1 ≠ nil_Node).
Proof.
  intros Hadd. rewrite ManagerGet_unfold. unfold nodes_at.
  destruct (Add_Val_inv _ _ _ Hadd)
    as [[[old Hold] ->]|(Hlk & n & Hfac & Hnodes & _)].
  - rewrite Hold. split; [done|]. congruence.
  - rewrite Hlk, Hnodes, lookup_insert_eq, Hfac. split; [done|]. congruence.
Qed.

(** X2 ([Remove] then [Get]): after a [Remove(url)] that returned,
    [Get(url)] yields nil, and [Get] of any URL with another derived name
    yields what it yielded before. *)
Theorem X2_Remove_then_Get (url : string) w w' :
  Remove url w = (Val tt, w') →
  ManagerGet url w' = (Val nil_Node, w') ∧
  ∀ url', Url2NodeName url' ≠ Url2NodeName url →
    (ManagerGet url' w').1 = (ManagerGet url' w).1.
Proof.
  intros Hrem. rewrite ManagerGet_unfold. unfold nodes_at.
  destruct (Remove_Val_inv _ _ _ Hrem) as [[Hlk ->]|(n & Hlk & ->)].
  - rewrite Hlk. done.
  - simpl. rewrite lookup_delete_eq. split; [done|].
    intros url' Hne. unfold ManagerGet, nodes_at. go_simpl.
    by rewrite lookup_delete_ne.
Qed.

(** X3 (what [Add] never does): whatever its outcome, [Add] keeps every
    entry of the Node Set and every member of the ring as they were (it only
    adds), and leaves the resolver, the epoch map, the middle epoch, the
    group, the factory and the emitted effects untouched. *)
Theorem X3_Add_only_adds (url : string) w :
  (∀ name node, nodes (mgr w) !! name = Some node →
     nodes (mgr (Add url w).2) !! name = Some node) ∧
  (∀ k n, members (hashRing (mgr w)) !! k = Some n →
     members (hashRing (mgr (Add url w).2)) !! k = Some n) ∧
  resolver (mgr (Add url w).2) = resolver (mgr w) ∧
  nodeName2Epochs (mgr (Add url w).2) = nodeName2Epochs (mgr w) ∧
  midEpoch (mgr (Add url w).2) = midEpoch (mgr w) ∧
  group (mgr (Add url w).2) = group (mgr w) ∧
  m_nodeFactory (mgr (Add url w).2) = m_nodeFactory (mgr w) ∧
  events (Add url w).2 = events w.
Proof.
  destruct (nodes (mgr w) !! Url2NodeName url) as [old|] eqn:Hlk.
  - by rewrite (Add_present _ _ _ Hlk).
  - rewrite (Add_absent _ _ Hlk). unfold hashRing_Add. simpl.
    destruct (m_nodeFactory (mgr w) (group (mgr w)) (Url2NodeName url) url).1
      as [n|]; simpl.
    + destruct (members (hashRing (mgr w)) !! Member_String n) eqn:Hring; simpl.
      * split_and!; try done. intros name node Hname.
        rewrite lookup_insert_ne; [done|]. congruence.
      * split_and!; try done.
        -- intros name node Hname. rewrite lookup_insert_ne; [done|]. congruence.
        -- intros k n' Hk. rewrite lookup_insert_ne; [done|]. congruence.
    + split_and!; try done. intros name node Hname.
      rewrite lookup_insert_ne; [done|]. congruence.
Qed.

(** X4 (a failed construction poisons the name): when the name is absent
    and the factory yields nil, [Add] panics, and from then on [Add] of the
    same URL is a silent no-op that does not call the factory again,
    [Remove] of it panics without removing anything, [Get] yields nil and
    the [List()] snapshot contains a nil node. *)
Theorem X4_failed_Add_poisons (url : string) w :
  nodes (mgr w) !! Url2NodeName url = None →
  (m_nodeFactory (mgr w) (group (mgr w)) (Url2NodeName url) url).1 = nil_Node →
  (Add url w).1 = Panic ∧
  Add url (Add url w).2 = (Val tt, (Add url w).2) ∧
  Remove url (Add url w).2 = (Panic, (Add url w).2) ∧
  ManagerGet url (Add url w).2 = (Val nil_Node, (Add url w).2) ∧
  ∃ l, List (Add url w).2 = (Val l, (Add url w).2) ∧ nil_Node ∈ l.
Proof.
  intros Hlk Hnil. rewrite (Add_absent_nil _ _ Hlk Hnil). simpl.
  assert (nodes (mgr (set_nodes (insert (Url2NodeName url) nil_Node) w))
            !! Url2NodeName url = Some nil_Node) as Hstored.
  { simpl. apply lookup_insert_eq. }
  split_and!.
  - done.
  - by eapply Add_present.
  - by apply Remove_nil.
  - rewrite ManagerGet_unfold. unfold nodes_at. by rewrite Hstored.
  - eexists. split; [reflexivity|].
    apply list_elem_of_fmap. exists (Url2NodeName url, nil_Node).
    split; [done|]. by apply elem_of_map_to_list.
Qed.

(** X5 ([Add] then [Remove] of a fresh URL): on a well-formed manager that
    does not hold the derived name, an [Add(url)] that returned followed by
    [Remove(url)] closes the node that was built and brings the Node Set,
    the ring and the resolver back to what they were. *)
Theorem X5_Add_then_Remove (url : string) w w1 :
  wf (mgr w) →
  nodes (mgr w) !! Url2NodeName url = None →
  Add url w = (Val tt, w1) →
  ∃ n w2,
    (m_nodeFactory (mgr w) (group (mgr w)) (Url2NodeName url) url).1 = Some n ∧
    Remove url w1 = (Val tt, w2) ∧
    nodes (mgr w2) = nodes (mgr w) ∧
    hashRing (mgr w2) = hashRing (mgr w) ∧
    resolver (mgr w2) = resolver (mgr w) ∧
    events w2 = (events w ++ [EvClose n])%list.
Proof.
  intros [Hnf Hnamed Hring] Hlk Hadd.
  destruct (Add_Val_inv _ _ _ Hadd)
    as [[[old Hold] _]|(_ & n & Hfac & Hnodes & Hmem & _ & Hres & _ & _ & _ & Hev)];
    [congruence|].
  destruct (Hnf _ _ _ _ Hfac) as [_ Hkey].
  assert (members (hashRing (mgr w)) !! Url2NodeName url = None) as Hfresh.
  { destruct (members (hashRing (mgr w)) !! Url2NodeName url) as [n0|] eqn:Hold;
      [|done].
    apply Hring in Hold. congruence. }
  rewrite Hkey, Hfresh in Hmem.
  assert (nodes (mgr w1) !! Url2NodeName url = Some (Some n)) as Hlk1.
  { rewrite Hnodes. apply lookup_insert_eq. }
  exists n. eexists. split; [done|].
  split; [by apply Remove_present|]. simpl. split_and!.
  - rewrite Hnodes. by apply delete_insert_id.
  - unfold consistent_Remove. rewrite Hmem, delete_insert_id by done.
    by destruct (hashRing (mgr w)).
  - done.
  - by rewrite Hev.
Qed.

End lookup_properties.

(** ** Routing *)

Section routing_extras.
Context `{Collaborators} {R : Type} `{RepartitionResolver R}.
Implicit Types (w : World R) (m : Manager R) (key : list byte).

Lemma Distribute_nodes key w :
  nodes (mgr (Distribute key w).2) = nodes (mgr w).
Proof.
  destruct (Distribute_cases key w)
    as [(name & _ & ->)|[(_ & _ & ->)|(_ & n & _ & ->)]]; done.
Qed.

Lemma Distribute_returns key w :
  ∃ node w1, Distribute key w = (Val node, w1) ∧
             group (mgr w1) = group (mgr w) ∧ events w1 = events w.
Proof.
  destruct (Distribute_cases key w)
    as [(name & _ & ->)|[(_ & _ & ->)|(_ & n & _ & ->)]];
    by eexists _, _.
Qed.

Lemma Distribute_live key w n :
  wf (mgr w) →
  (Distribute key w).1 = Val (Some n) →
  nodes (mgr w) !! Name n = Some (Some n).
Proof.
  intros [_ Hnamed Hring].
  destruct (Distribute_cases key w)
    as [(name & _ & ->)|[(_ & _ & ->)|(_ & n' & Hloc & ->)]]; simpl.
  - unfold nodes_at. intros [= Hnode].
    destruct (nodes (mgr w) !! name) as [node|] eqn:Hlk; [|done].
    simpl in Hnode. subst node.
    destruct (Hnamed _ _ Hlk) as (n' & [= <-] & Hname & _). by rewrite Hname.
  - done.
  - intros [= ->]. apply LocateKey_Some in Hloc as (owner & _ & Hmem).
    pose proof (Hring _ _ Hmem) as Hnode.
    destruct (Hnamed _ _ Hnode) as (n' & [= <-] & Hname & _). by rewrite Hname.
Qed.

(** X6 ([Distribute] returns only nodes of the Node Set): on a well-formed
    manager, a node returned by [Distribute], whether it comes from the
    resolver or from the ring, is the entry the Node Set holds under that
    node's name, before and after the call. *)
Theorem X6_Distribute_returns_member key w (n : NodeObj) w' :
  wf (mgr w) →
  Distribute key w = (Val (Some n), w') →
  nodes (mgr w) !! Name n = Some (Some n) ∧
  nodes (mgr w') !! Name n = Some (Some n).
Proof.
  intros Hwf Hd.
  assert (nodes (mgr w) !! Name n = Some (Some n)) as Hlive.
  { apply (Distribute_live key); [done|]. by rewrite Hd. }
  split; [done|].
  pose proof (Distribute_nodes key w) as Hsame. rewrite Hd in Hsame.
  simpl in Hsame. by rewrite Hsame.
Qed.

(** X7 ([Route] on top of [Distribute]): [Route] never panics and leaves the
    manager as [Distribute] leaves it.  On a well-formed manager it either
    returns the empty string, having marked no meter, when [Distribute]
    found no node, or it returns the URL of a node of the Node Set and has
    marked exactly two meters, ["overall"] and the node's name, in that
    order. *)
Theorem X7_Route_result key w :
  wf (mgr w) →
  ∃ u w',
    Route key w = (Val u, w') ∧
    mgr w' = mgr (Distribute key w).2 ∧
    (((Distribute key w).1 = Val nil_Node ∧ u = "" ∧ events w' = events w) ∨
     (∃ n, (Distribute key w).1 = Val (Some n) ∧
           nodes (mgr w) !! Name n = Some (Some n) ∧
           u = Url n ∧
           events w' =
             (events w ++
              [EvRoutes (Space (group (mgr w))) (Group_String (group (mgr w)))
                 "overall";
               EvRoutes (Space (group (mgr w))) (Group_String (group (mgr w)))
                 (Name n)])%list)).
Proof.
  intros Hwf. rewrite Route_unfold.
  destruct (Distribute_returns key w) as (node & w1 & Hd & Hgrp & Hev).
  pose proof (Distribute_live key w) as Hlive.
  rewrite Hd in Hlive |- *. simpl in Hlive |- *.
  destruct node as [n|].
  - eexists _, _. split; [done|]. split; [done|]. right. exists n.
    split_and!; try done; [by apply Hlive|].
    simpl. by rewrite Hgrp, Hev, <- app_assoc.
  - eexists _, _. split; [done|]. split; [done|]. left. by rewrite Hev.
Qed.

Section retaining_extras.
Context `{!RetainingResolver R}.

(** X8 (keys with the same hash share a pin): the resolver is keyed by the
    64-bit hash while the ring locates the raw key, so once [Distribute]
    has returned a node for one key, any other key with the same hash gets
    that same node from the resolver, wherever the ring would place it. *)
Theorem X8_hash_collision_shares_pin key1 key2 w w1 (X : NodeObj) :
  wf (mgr w) →
  Distribute key1 w = (Val (Some X), w1) →
  Sum64 key2 = Sum64 key1 →
  Distribute key2 w1 = (Val (Some X), w1).
Proof.
  intros Hwf Hd Hhash.
  pose proof (Distribute_live key1 w X Hwf) as Hlive.
  rewrite Hd in Hlive. specialize (Hlive eq_refl).
  pose proof (Distribute_nodes key1 w) as Hsame.
  rewrite Hd in Hsame. simpl in Hsame.
  assert (Get (resolver (mgr w1)) (Sum64 key2) = Some (Name X)) as Hentry.
  { rewrite Hhash.
    destruct (Distribute_cases key1 w)
      as [(name & Hhit & Hd')|[(_ & _ & Hd')|(_ & n & _ & Hd')]];
      rewrite Hd' in Hd.
    - injection Hd as Hnode <-. unfold nodes_at in Hnode.
      destruct (nodes (mgr w) !! name) as [node|] eqn:Hlk; [|done].
      simpl in Hnode. subst node.
      destruct Hwf as [_ Hnamed _].
      destruct (Hnamed _ _ Hlk) as (n' & [= <-] & Hname & _). by rewrite Hname.
    - done.
    - injection Hd as -> <-. simpl. apply Get_Put_eq. }
  rewrite (Distribute_hit _ _ _ Hentry). unfold nodes_at.
  by rewrite Hsame, Hlive.
Qed.

(** X9 (a resolver entry pins the key to a name for good): once the
    resolver holds a name for a key's hash, every later [Distribute] of that
    key, after any sequence of calls, returns whatever the Node Set holds
    under that name at that time (nil when the name is gone) and changes
    nothing; the ring is not consulted for that key again. *)
Theorem X9_entry_pins_name key w (name : string) (cs : list Call)
    (r : result unit) w' :
  Get (resolver (mgr w)) (Sum64 key) = Some name →
  calls cs w = (r, w') →
  Distribute key w' = (Val (nodes_at (mgr w') name), w').
Proof.
  intros Hentry Hcalls.
  pose proof (calls_keeps_entry cs w _ _ Hentry) as Hkeep.
  rewrite Hcalls in Hkeep. by apply Distribute_hit.
Qed.

End retaining_extras.

End routing_extras.

(** ** Snapshots: [List] and [String] *)

Section snapshot_extras.
Context `{Collaborators} {R : Type} `{RepartitionResolver R}.
Implicit Types (w : World R) (m : Manager R).

(** X10 ([List]): [List] changes nothing and returns one value per name of
    the Node Set, namely exactly the stored values.  On a well-formed
    manager no returned node is nil and no node is returned twice. *)
Theorem X10_List_snapshot w :
  ∃ l, List w = (Val l, w) ∧
       length l = size (nodes (mgr w)) ∧
       (∀ node, node ∈ l ↔ ∃ name, nodes (mgr w) !! name = Some node) ∧
       (wf (mgr w) → (nil_Node ∉ l) ∧ NoDup l).
Proof.
  eexists. split; [reflexivity|]. split_and!.
  - by rewrite length_fmap, length_map_to_list.
  - intros node. rewrite list_elem_of_fmap. split.
    + intros ([name node'] & -> & Hin). exists name.
      by apply elem_of_map_to_list.
    + intros [name Hlk]. exists (name, node). split; [done|].
      by apply elem_of_map_to_list.
  - intros [_ Hnamed _]. split.
    + intros Hin. apply list_elem_of_fmap in Hin as ([name node] & Heq & Hin).
      simpl in Heq. subst node. apply elem_of_map_to_list in Hin.
      by destruct (Hnamed _ _ Hin) as (n & ? & _).
    + apply NoDup_fmap_2_strong; [|apply NoDup_map_to_list].
      intros [k1 v1] [k2 v2] Hin1 Hin2 Heq. simpl in Heq. subst v2.
      apply elem_of_map_to_list in Hin1. apply elem_of_map_to_list in Hin2.
      destruct (Hnamed _ _ Hin1) as (n1 & -> & Hn1 & _).
      destruct (Hnamed _ _ Hin2) as (n2 & [= <-] & Hn2 & _).
      congruence.
Qed.

(** X11 ([String]): [String] changes nothing and returns the names of the
    Node Set joined by [", "], each name exactly once; for an empty Node Set
    it is the empty string. *)
Theorem X11_String_names w :
  (∃ names, ManagerString w = (Val (String.concat ", " names), w) ∧
            NoDup names ∧ length names = size (nodes (mgr w)) ∧
            ∀ name, name ∈ names ↔ is_Some (nodes (mgr w) !! name)) ∧
  (nodes (mgr w) = ∅ → ManagerString w = (Val "", w)).
Proof.
  split.
  - eexists. split; [reflexivity|]. split_and!.
    + apply NoDup_fst_map_to_list.
    + by rewrite length_fmap, length_map_to_list.
    + intros name. rewrite list_elem_of_fmap. split.
      * intros ([name' node] & -> & Hin). exists node.
        by apply elem_of_map_to_list.
      * intros [node Hlk]. exists (name, node). split; [done|].
        by apply elem_of_map_to_list.
  - intros Hempty. unfold ManagerString. go_simpl.
    by rewrite Hempty, map_to_list_empty.
Qed.

End snapshot_extras.

(** ** The constructor *)

Lemma consistent_New_from_total (c : Consistent) (ms : list Node) :
  (∀ node, node ∈ ms → node ≠ nil_Node) →
  ∃ ring, consistent_New_from c ms = Val ring.
Proof.
  revert c. induction ms as [|member rest IH]; intros c Hnn; [by eexists|].
  simpl. destruct member as [n|]; simpl.
  - apply IH. intros node Hin. apply Hnn. by apply elem_of_cons; right.
  - destruct (Hnn nil_Node); [by apply elem_of_cons; left|done].
Qed.

Section constructor_extras.
Context `{Collaborators}.

(** An entry, once made, is never overwritten by the loop. *)
Lemma NewManager_loop_keeps (g : Group) (nf : nodeFactory)
    (urls : list string) (ns ns' : gmap string Node) (ms ms' : list Node) :
  NewManager_loop g nf urls ns ms = (ns', ms') →
  ∀ name node, ns !! name = Some node → ns' !! name = Some node.
Proof.
  revert ns ms. induction urls as [|url rest IH]; intros ns ms Hloop name node Hlk.
  - simpl in Hloop. by injection Hloop as <- <-.
  - simpl in Hloop.
    destruct (ns !! Url2NodeName url) as [node0|] eqn:Hold; [by eapply IH|].
    eapply IH; [exact Hloop|]. rewrite lookup_insert_ne; [done|]. congruence.
Qed.

(** The first URL of a name decides the entry. *)
Lemma NewManager_loop_first_wins (g : Group) (nf : nodeFactory)
    (urls : list string) (ns ns' : gmap string Node) (ms ms' : list Node)
    (pre post : list string) (url : string) :
  NewManager_loop g nf urls ns ms = (ns', ms') →
  urls = (pre ++ url :: post)%list →
  ns !! Url2NodeName url = None →
  (∀ u, u ∈ pre → Url2NodeName u ≠ Url2NodeName url) →
  ns' !! Url2NodeName url = Some (nf g (Url2NodeName url) url).1.
Proof.
  revert urls ns ms. induction pre as [|u pre IH];
    intros urls ns ms Hloop -> Hlk Hpre; simpl in Hloop.
  - rewrite Hlk in Hloop.
    eapply NewManager_loop_keeps; [exact Hloop|]. apply lookup_insert_eq.
  - assert (Url2NodeName u ≠ Url2NodeName url) as Hne
      by (apply Hpre; by apply elem_of_cons; left).
    destruct (ns !! Url2NodeName u) as [node0|] eqn:Hu.
    + eapply IH; [exact Hloop|done|done|].
      intros u' Hu'. apply Hpre. by apply elem_of_cons; right.
    + eapply IH; [exact Hloop|done| |].
      * by rewrite lookup_insert_ne.
      * intros u' Hu'. apply Hpre. by apply elem_of_cons; right.
Qed.

(** Every fresh entry comes from the first URL of its name. *)
Lemma NewManager_loop_first (g : Group) (nf : nodeFactory)
    (urls : list string) (ns ns' : gmap string Node) (ms ms' : list Node)
    (name : string) (node : Node) :
  NewManager_loop g nf urls ns ms = (ns', ms') →
  ns !! name = None →
  ns' !! name = Some node →
  ∃ pre url post,
    urls = (pre ++ url :: post)%list ∧ Url2NodeName url = name ∧
    (∀ u, u ∈ pre → Url2NodeName u ≠ name) ∧
    node = (nf g name url).1.
Proof.
  revert ns ms. induction urls as [|u rest IH]; intros ns ms Hloop Hlk Hlk'.
  - simpl in Hloop. injection Hloop as <- <-. congruence.
  - destruct (decide (Url2NodeName u = name)) as [Heq|Hne].
    + exists [], u, rest. split; [done|]. split; [done|].
      split; [intros u' Hu'; by apply elem_of_nil in Hu'|].
      pose proof (NewManager_loop_first_wins g nf (u :: rest) ns ns' ms ms'
                    [] rest u Hloop eq_refl) as Hfirst.
      rewrite Heq in Hfirst. rewrite Hfirst in Hlk'; [congruence|done|].
      intros u' Hu'. by apply elem_of_nil in Hu'.
    + simpl in Hloop.
      destruct (ns !! Url2NodeName u) as [node0|] eqn:Hu.
      * destruct (IH _ _ Hloop Hlk Hlk') as (pre & url & post & -> & Hn & Hpre & Hnode).
        exists (u :: pre), url, post. split; [done|]. split; [done|].
        split; [|done]. intros u' Hu'.
        apply elem_of_cons in Hu' as [->|Hu']; [done|by apply Hpre].
      * destruct (IH _ _ Hloop) as (pre & url & post & -> & Hn & Hpre & Hnode);
          [by rewrite lookup_insert_ne|done|].
        exists (u :: pre), url, post. split; [done|]. split; [done|].
        split; [|done]. intros u' Hu'.
        apply elem_of_cons in Hu' as [->|Hu']; [done|by apply Hpre].
Qed.

(** The names of the Node Set are the old ones and those of the URLs. *)
Lemma NewManager_loop_dom (g : Group) (nf : nodeFactory)
    (urls : list string) (ns ns' : gmap string Node) (ms ms' : list Node) :
  NewManager_loop g nf urls ns ms = (ns', ms') →
  dom ns' = dom ns ∪ list_to_set (Url2NodeName <$> urls).
Proof.
  revert ns ms. induction urls as [|url rest IH]; intros ns ms Hloop.
  - simpl in Hloop. injection Hloop as <- <-. simpl.
    by rewrite (right_id_L ∅ (∪)).
  - simpl in Hloop. apply set_eq. intros x.
    destruct (ns !! Url2NodeName url) as [node0|] eqn:Hold.
    + rewrite (IH _ _ Hloop). apply (elem_of_dom_2 (D := gset string)) in Hold.
      simpl. rewrite !elem_of_union, elem_of_singleton.
      intuition (subst; auto).
    + rewrite (IH _ _ Hloop), dom_insert_L.
      simpl. rewrite !elem_of_union, elem_of_singleton.
      intuition (subst; auto).
Qed.

(** Every member handed to the ring is an old one or a fresh entry. *)
Lemma NewManager_loop_members (g : Group) (nf : nodeFactory)
    (urls : list string) (ns ns' : gmap string Node) (ms ms' : list Node) :
  NewManager_loop g nf urls ns ms = (ns', ms') →
  ∀ node, node ∈ ms' →
    node ∈ ms ∨ ∃ name, ns !! name = None ∧ ns' !! name = Some node.
Proof.
  revert ns ms. induction urls as [|url rest IH]; intros ns ms Hloop node Hin.
  - simpl in Hloop. injection Hloop as <- <-. by left.
  - simpl in Hloop.
    destruct (ns !! Url2NodeName url) as [node0|] eqn:Hold.
    + destruct (IH _ _ Hloop _ Hin) as [Hms|(name & Hnone & Hsome)]; [by left|].
      right. by exists name.
    + destruct (IH _ _ Hloop _ Hin) as [Hms|(name & Hnone & Hsome)].
      * apply elem_of_app in Hms as [Hms|Hms]; [by left|].
        apply list_elem_of_singleton in Hms. subst node. right.
        exists (Url2NodeName url). split; [done|].
        eapply NewManager_loop_keeps; [exact Hloop|]. apply lookup_insert_eq.
      * right. exists name. split; [|done].
        destruct (decide (Url2NodeName url = name)) as [<-|Hne]; [done|].
        by rewrite lookup_insert_ne in Hnone.
Qed.

(** The accumulator of members only grows at its end. *)
Lemma NewManager_loop_acc (g : Group) (nf : nodeFactory)
    (urls : list string) (ns : gmap string Node) (ms0 ms : list Node) :
  NewManager_loop g nf urls ns (ms0 ++ ms)%list =
    ((NewManager_loop g nf urls ns ms).1,
     (ms0 ++ (NewManager_loop g nf urls ns ms).2)%list).
Proof.
  revert ns ms. induction urls as [|url rest IH]; intros ns ms; [done|].
  simpl. destruct (ns !! Url2NodeName url) as [node0|]; [apply IH|].
  rewrite <- app_assoc. apply IH.
Qed.

End constructor_extras.

Section constructor_properties.
Context `{Collaborators} {R : Type} `{RepartitionResolver R}.
Implicit Types (w : World R) (m : Manager R).

(** X12 (duplicate URLs in the constructor): a constructor that returns has
    a Node Set whose names are exactly the names derived from [urls], and
    under each name it holds the node the factory built for the first URL
    of [urls] with that name; later URLs of the same name are skipped.  The
    resolver handed in is installed, and the epoch map starts empty with
    middle epoch 0. *)
Theorem X12_constructor_first_url_wins (g : Group) (nf : nodeFactory)
    (urls : list string) (rsv : R) m :
  NewManagerWithRepartition g nf urls rsv = Val m →
  dom (nodes m) = list_to_set (Url2NodeName <$> urls) ∧
  (∀ pre url post, urls = (pre ++ url :: post)%list →
     (∀ u, u ∈ pre → Url2NodeName u ≠ Url2NodeName url) →
     nodes m !! Url2NodeName url = Some (nf g (Url2NodeName url) url).1) ∧
  resolver m = rsv ∧ nodeName2Epochs m = ∅ ∧ midEpoch m = 0%N.
Proof.
  intros Hnew.
  destruct (NewManager_Val_inv _ _ _ _ _ Hnew)
    as (ms & Hloop & _ & _ & Hrsv & _ & Hep & Hmid).
  split_and!; try done.
  - rewrite (NewManager_loop_dom _ _ _ _ _ _ _ Hloop), dom_empty_L.
    by rewrite (left_id_L ∅ (∪)).
  - intros pre url post Hurls Hpre.
    by eapply NewManager_loop_first_wins.
Qed.

(** X13 (when the constructor completes): the constructor returns a manager
    exactly when the factory yields a node, not nil, for the first URL of
    every name; otherwise handing the nil member to the ring panics.  The
    error the factory returns has no influence. *)
Theorem X13_constructor_completes_iff (g : Group) (nf : nodeFactory)
    (urls : list string) (rsv : R) :
  (∃ m, NewManagerWithRepartition g nf urls rsv = Val m) ↔
  (∀ pre url post, urls = (pre ++ url :: post)%list →
     (∀ u, u ∈ pre → Url2NodeName u ≠ Url2NodeName url) →
     (nf g (Url2NodeName url) url).1 ≠ nil_Node).
Proof.
  split.
  - intros [m Hnew] pre url post Hurls Hpre Hnil.
    destruct (NewManager_Val_inv _ _ _ _ _ Hnew) as (ms & Hloop & Hring & _).
    pose proof (NewManager_loop_first_wins _ _ _ _ _ _ _ _ _ _ Hloop Hurls
                  (lookup_empty _) Hpre) as Hstored.
    destruct (NewManager_loop_stores _ _ _ _ _ _ _ Hloop) as (_ & _ & Hin).
    { intros name node Hlk. by rewrite lookup_empty in Hlk. }
    apply (consistent_New_from_nonnil _ _ _ Hring _ (Hin _ _ Hstored)).
    done.
  - intros Hfirst. unfold NewManagerWithRepartition.
    destruct (NewManager_loop g nf urls ∅ []) as [ns ms] eqn:Hloop.
    destruct (consistent_New_from_total (mkRing ∅) ms) as [ring Hring].
    { intros node Hin Hnil. subst node.
      destruct (NewManager_loop_members _ _ _ _ _ _ _ Hloop _ Hin)
        as [Hnil|(name & _ & Hstored)]; [by apply elem_of_nil in Hnil|].
      destruct (NewManager_loop_first _ _ _ _ _ _ _ _ _ Hloop
                  (lookup_empty _) Hstored)
        as (pre & url & post & Hurls & <- & Hpre & Hnode).
      by apply (Hfirst pre url post Hurls Hpre). }
    unfold consistent_New. rewrite Hring. by eexists.
Qed.

(** The constructor's loop followed by [consistent.New], replayed as a
    sequence of [Add] calls. *)
Lemma Adds_replay_loop (g : Group) (nf : nodeFactory) (rsv : R)
    (ep : gmap string N) (mid : N) (ev : list Event) (urls : list string) :
  factory_ok nf →
  ∀ (ns ns' : gmap string Node) (c c' : Consistent) (new : list Node),
    (∀ k n, members c !! k = Some n → ns !! k = Some (Some n)) →
    NewManager_loop g nf urls ns [] = (ns', new) →
    consistent_New_from c new = Val c' →
    calls (CallAdd <$> urls) (mkWorld (mkManager g ns c rsv nf ep mid) ev) =
      (Val tt, mkWorld (mkManager g ns' c' rsv nf ep mid) ev).
Proof.
  intros Hnf. induction urls as [|url rest IH];
    intros ns ns' c c' new Hring Hloop Hnew.
  - simpl in Hloop. injection Hloop as <- <-. simpl in Hnew.
    by injection Hnew as <-.
  - simpl in Hloop. simpl. unfold mbind, Go_bind.
    destruct (ns !! Url2NodeName url) as [node0|] eqn:Hlk.
    + rewrite (Add_present url _ node0) by done.
      eapply IH; [exact Hring|exact Hloop|exact Hnew].
    + rewrite Add_absent by done. unfold hashRing_Add. simpl.
      pose proof (NewManager_loop_acc g nf rest
                    (<[Url2NodeName url := (nf g (Url2NodeName url) url).1]> ns)
                    [(nf g (Url2NodeName url) url).1] []) as Hacc.
      simpl in Hacc. rewrite Hacc in Hloop. clear Hacc.
      injection Hloop as Hns <-. simpl in Hnew.
      destruct (nf g (Url2NodeName url) url).1 as [n|] eqn:Hfac;
        simpl in Hnew; [|done].
      destruct (Hnf _ _ _ _ Hfac) as [_ Hkey]. simpl.
      assert (members c !! Member_String n = None) as Hfresh.
      { rewrite Hkey. destruct (members c !! Url2NodeName url) eqn:Hold; [|done].
        apply Hring in Hold. congruence. }
      rewrite Hfresh. simpl.
      apply IH with (new := (NewManager_loop g nf rest
                               (<[Url2NodeName url := Some n]> ns) []).2);
        [| by rewrite <- Hns; destruct (NewManager_loop _ _ _ _ _) | done].
      intros k n'. simpl. rewrite Hkey.
      destruct (decide (Url2NodeName url = k)) as [<-|Hne].
      * rewrite !lookup_insert_eq. congruence.
      * rewrite !lookup_insert_ne by done. apply Hring.
Qed.

(** X14 (the constructor is a sequence of [Add]s): for a factory that gives
    each node the name it was asked to build, a constructor that returns
    yields exactly the manager obtained from the empty manager by calling
    [Add] on each URL in order. *)
Theorem X14_constructor_is_Adds (g : Group) (nf : nodeFactory)
    (urls : list string) (rsv : R) m :
  factory_ok nf →
  NewManagerWithRepartition g nf urls rsv = Val m →
  calls (CallAdd <$> urls)
    (mkWorld (mkManager g ∅ (mkRing ∅) rsv nf ∅ 0%N) []) =
    (Val tt, mkWorld m []).
Proof.
  intros Hnf Hnew. unfold NewManagerWithRepartition in Hnew.
  destruct (NewManager_loop g nf urls ∅ []) as [ns ms] eqn:Hloop.
  destruct (consistent_New ms) as [ring|] eqn:Hring; [|done].
  injection Hnew as <-.
  eapply Adds_replay_loop; [done| |exact Hloop|exact Hring].
  intros k n Hlk. simpl in Hlk. by rewrite lookup_empty in Hlk.
Qed.

End constructor_properties.

(** ** Sequences of completed calls *)

Section sequence_properties.
Context `{Collaborators} {R : Type} `{RepartitionResolver R}.
Implicit Types (w : World R) (m : Manager R) (key : list byte).

Lemma Distribute_hashRing key w :
  hashRing (mgr (Distribute key w).2) = hashRing (mgr w).
Proof.
  destruct (Distribute_cases key w)
    as [(name & _ & ->)|[(_ & _ & ->)|(_ & n & _ & ->)]]; done.
Qed.

Lemma ring_covers_Distribute key w :
  ring_covers (mgr w) → ring_covers (mgr (Distribute key w).2).
Proof.
  intros Hcov name.
  rewrite Distribute_nodes, Distribute_hashRing. apply Hcov.
Qed.

Lemma call_keeps_invariants (c : Call) w w' :
  wf (mgr w) → ring_covers (mgr w) →
  call c w = (Val tt, w') →
  wf (mgr w') ∧ ring_covers (mgr w').
Proof.
  intros Hwf Hcov. destruct c as [url|url|key|key]; simpl.
  - intros Hadd. split; [by eapply wf_Add|].
    eapply ring_covers_Add; [by destruct Hwf|done|done].
  - intros Hrem. split; [by eapply wf_Remove|by eapply ring_covers_Remove].
  - unfold mbind, Go_bind.
    pose proof (wf_Distribute key w Hwf) as Hwf'.
    pose proof (ring_covers_Distribute key w Hcov) as Hcov'.
    destruct (Distribute key w) as [[node|] w1]; [|done].
    by intros [= <-].
  - unfold mbind, Go_bind.
    pose proof (wf_Distribute key w Hwf) as Hwf'.
    pose proof (ring_covers_Distribute key w Hcov) as Hcov'.
    rewrite <- Route_mgr in Hwf', Hcov'.
    destruct (Route key w) as [[u|] w1]; [|done].
    by intros [= <-].
Qed.

Lemma calls_keep_invariants (cs : list Call) w w' :
  wf (mgr w) → ring_covers (mgr w) →
  calls cs w = (Val tt, w') →
  wf (mgr w') ∧ ring_covers (mgr w').
Proof.
  revert w. induction cs as [|c rest IH]; intros w Hwf Hcov; simpl.
  - by intros [= <-].
  - unfold mbind, Go_bind.
    destruct (call c w) as [[[]|] w1] eqn:Hcall; [|done].
    destruct (call_keeps_invariants _ _ _ Hwf Hcov Hcall) as [Hwf1 Hcov1].
    by apply IH.
Qed.

(** X15 (the ring mirrors the Node Set): for a factory that gives each node
    the name it was asked to build, after the constructor and any sequence
    of [Add], [Remove], [Distribute] and [Route] calls that all returned,
    the ring holds under each name exactly the node the Node Set holds
    under it, and has no member for a name the Node Set lacks. *)
Theorem X15_ring_mirrors_nodes (g : Group) (nf : nodeFactory)
    (urls : list string) (rsv : R) m (ev : list Event) (cs : list Call) w' :
  factory_ok nf →
  NewManagerWithRepartition g nf urls rsv = Val m →
  calls cs (mkWorld m ev) = (Val tt, w') →
  ∀ name, nodes (mgr w') !! name =
            Some <$> (members (hashRing (mgr w')) !! name).
Proof.
  intros Hnf Hnew Hcalls name.
  destruct (wf_NewManager _ _ _ _ _ Hnf Hnew) as [Hwf Hcov].
  destruct (calls_keep_invariants cs (mkWorld m ev) w' Hwf Hcov Hcalls)
    as [[_ Hnamed Hring] Hcov'].
  destruct (members (hashRing (mgr w')) !! name) as [n|] eqn:Hmem; simpl.
  - by apply Hring.
  - destruct (nodes (mgr w') !! name) as [node|] eqn:Hlk; [|done].
    destruct (Hcov' name) as [n Hn]; [by eexists|]. congruence.
Qed.

Lemma call_events (c : Call) w :
  ∃ new, events (call c w).2 = (events w ++ new)%list ∧
         ∀ n, EvClose n ∈ new → ∃ url, c = CallRemove url.
Proof.
  destruct c as [url|url|key|key]; simpl.
  - exists []. split; [|intros n Hin; by apply elem_of_nil in Hin].
    rewrite (right_id_L [] (++)).
    destruct (nodes (mgr w) !! Url2NodeName url) as [old|] eqn:Hlk.
    + by rewrite (Add_present _ _ _ Hlk).
    + rewrite (Add_absent _ _ Hlk). unfold hashRing_Add. simpl.
      by destruct (consistent_Add _ _).
  - destruct (nodes (mgr w) !! Url2NodeName url) as [[n|]|] eqn:Hlk.
    + rewrite (Remove_present _ _ _ Hlk). eexists. split; [done|].
      intros n' _. by exists url.
    + rewrite (Remove_nil _ _ Hlk). exists []. rewrite (right_id_L [] (++)).
      split; [done|]. intros n Hin. by apply elem_of_nil in Hin.
    + rewrite (Remove_absent _ _ Hlk). exists []. rewrite (right_id_L [] (++)).
      split; [done|]. intros n Hin. by apply elem_of_nil in Hin.
  - exists []. split; [|intros n Hin; by apply elem_of_nil in Hin].
    rewrite (right_id_L [] (++)). unfold mbind, Go_bind.
    destruct (Distribute_returns key w) as (node & w1 & Hd & _ & Hev).
    by rewrite Hd.
  - unfold mbind, Go_bind. rewrite Route_unfold.
    destruct (Distribute_returns key w) as (node & w1 & Hd & _ & Hev).
    rewrite Hd. destruct node as [n|]; simpl.
    + eexists. rewrite Hev, <- app_assoc. split; [done|].
      intros n' Hin. simpl in Hin.
      apply elem_of_cons in Hin as [Hin|Hin]; [done|].
      apply elem_of_cons in Hin as [Hin|Hin]; [done|].
      by apply elem_of_nil in Hin.
    + exists []. rewrite (right_id_L [] (++)). split; [done|].
      intros n Hin. by apply elem_of_nil in Hin.
Qed.

(** X16 (only [Remove] closes nodes): over any sequence of calls, whatever
    their outcome, the effects emitted earlier are kept, and a [Close] is
    emitted only if the sequence contains a [Remove]; [Add], [Distribute]
    and [Route] never close a node. *)
Theorem X16_only_Remove_closes (cs : list Call) w :
  ∃ new, events (calls cs w).2 = (events w ++ new)%list ∧
         ∀ n, EvClose n ∈ new → ∃ url, CallRemove url ∈ cs.
Proof.
  revert w. induction cs as [|c rest IH]; intros w; simpl.
  - exists []. rewrite (right_id_L [] (++)). split; [done|].
    intros n Hin. by apply elem_of_nil in Hin.
  - unfold mbind, Go_bind.
    destruct (call_events c w) as (new1 & Hev1 & Hclose1).
    destruct (call c w) as [[[]|] w1]; simpl in Hev1.
    + destruct (IH w1) as (new2 & Hev2 & Hclose2).
      exists (new1 ++ new2)%list. rewrite Hev2, Hev1, <- app_assoc.
      split; [done|]. intros n Hin. apply elem_of_app in Hin as [Hin|Hin].
      * destruct (Hclose1 _ Hin) as [url ->]. exists url.
        by apply elem_of_cons; left.
      * destruct (Hclose2 _ Hin) as [url Hurl]. exists url.
        by apply elem_of_cons; right.
    + exists new1. split; [done|]. intros n Hin.
      destruct (Hclose1 _ Hin) as [url ->]. exists url.
      by apply elem_of_cons; left.
Qed.

End sequence_properties.

(** ** The default manager always routes a non-empty cluster *)

(** X17 (availability with the no-op resolver): on a manager wired with the
    no-op resolver, as [NewManager] builds it, whose ring mirrors a
    non-empty Node Set, [Distribute] returns for every key a node of the
    Node Set and changes nothing, and [Route] returns that node's URL. *)
Theorem X17_noop_routes_nonempty `{Collaborators} `{!LocateContract}
    (key : list byte) (w : World noopRepartitionResolver) :
  wf (mgr w) → ring_covers (mgr w) →
  nodes (mgr w) ≠ ∅ →
  ∃ n, nodes (mgr w) !! Name n = Some (Some n) ∧
       Distribute key w = (Val (Some n), w) ∧
       (Route key w).1 = Val (Url n).
Proof.
  intros [_ Hnamed Hring] Hcov Hne.
  destruct (LocateKey_live key (mgr w) Hnamed Hring Hcov Hne)
    as (n & Hloc & Hlive).
  assert (Distribute key w = (Val (Some n), w)) as Hd.
  { rewrite (Distribute_miss_ring key w n); [|done|done].
    by destruct w as [[]]. }
  exists n. split_and!; [done..|]. by rewrite Route_unfold, Hd.
Qed.

(** * The further properties on the demo cluster *)

Section demo_extras.
#[local] Existing Instance demo.
#[local] Existing Instance demo_contract.

Lemma demo_noop_a_wf :
  @wf noopRepartitionResolver demo_noop_a ∧ ring_covers demo_noop_a.
Proof.
  eapply (@wf_NewManager demo); [apply demo_factory_ok|].
  apply demo_noop_a_built.
Qed.

Lemma X1_witness :
  ManagerGet "b" (mkWorld demo_stateful_ab []) =
    (Val (Some node_b), mkWorld demo_stateful_ab []).
Proof.
  exact (proj1 (X1_Add_then_Get "b" (mkWorld demo_stateful_a [])
                  (mkWorld demo_stateful_ab []) demo_Add_b)).
Defined.

Lemma X2_witness :
  let w := mkWorld demo_stateful_ab [] in
  ManagerGet "a" (Remove "a" w).2 = (Val nil_Node, (Remove "a" w).2) ∧
  (ManagerGet "b" (Remove "a" w).2).1 = Val (Some node_b).
Proof.
  intros w.
  assert (Remove "a" w = (Val tt, (Remove "a" w).2)) as Hrem by reflexivity.
  destruct (X2_Remove_then_Get "a" w _ Hrem) as [Hget Hother].
  split; [exact Hget|]. rewrite (Hother "b"); [reflexivity|discriminate].
Defined.

Lemma X4_witness :
  let w := mkWorld demo_stateful_a [] in
  (Add "down" w).1 = Panic ∧
  Add "down" (Add "down" w).2 = (Val tt, (Add "down" w).2) ∧
  Remove "down" (Add "down" w).2 = (Panic, (Add "down" w).2) ∧
  ManagerGet "down" (Add "down" w).2 = (Val nil_Node, (Add "down" w).2) ∧
  ∃ l, List (Add "down" w).2 = (Val l, (Add "down" w).2) ∧ nil_Node ∈ l.
Proof.
  intros w. apply (X4_failed_Add_poisons "down" w); reflexivity.
Defined.

Lemma X5_witness :
  let w := mkWorld demo_stateful_a [] in
  ∃ n w2,
    (demo_factory demo_group "b" "b").1 = Some n ∧
    Remove "b" (mkWorld demo_stateful_ab []) = (Val tt, w2) ∧
    nodes (mgr w2) = nodes (mgr w) ∧
    hashRing (mgr w2) = hashRing (mgr w) ∧
    resolver (mgr w2) = resolver (mgr w) ∧
    events w2 = (events w ++ [EvClose n])%list.
Proof.
  intros w.
  assert (nodes (mgr w) !! Url2NodeName "b" = None) as Hlk by reflexivity.
  exact (X5_Add_then_Remove "b" w (mkWorld demo_stateful_ab [])
           demo_stateful_a_wf Hlk demo_Add_b).
Defined.

Lemma X6_witness :
  let w := mkWorld demo_stateful_ab [] in
  nodes (mgr w) !! "b" = Some (Some node_b) ∧
  nodes (mgr (Distribute key1 w).2) !! "b" = Some (Some node_b).
Proof.
  intros w.
  assert (Distribute key1 w = (Val (Some node_b), (Distribute key1 w).2)) as Hd
    by reflexivity.
  exact (X6_Distribute_returns_member key1 w node_b _ demo_stateful_ab_wf Hd).
Defined.

Lemma X7_witness :
  ∃ u w', Route key1 (mkWorld demo_stateful_ab []) = (Val u, w') ∧
          mgr w' = mgr (Distribute key1 (mkWorld demo_stateful_ab [])).2.
Proof.
  destruct (X7_Route_result key1 (mkWorld demo_stateful_ab [])
              demo_stateful_ab_wf) as (u & w' & Hroute & Hmgr & _).
  by exists u, w'.
Defined.

Lemma X8_witness :
  let w := mkWorld demo_stateful_ab [] in
  consistent_LocateKey (hashRing (mgr w)) key1 = Some node_b ∧
  Distribute [x01] (Distribute key1 w).2 =
    (Val (Some node_b), (Distribute key1 w).2).
Proof.
  intros w. split; [reflexivity|].
  apply (X8_hash_collision_shares_pin key1 [x01] w).
  - apply demo_stateful_ab_wf.
  - reflexivity.
  - reflexivity.
Defined.

Lemma X9_witness :
  let w1 := (Distribute key1 (mkWorld demo_stateful_ab [])).2 in
  let w2 := (calls [CallRemove "b"; CallAdd "c"] w1).2 in
  Distribute key1 w2 = (Val (nodes_at (mgr w2) "b"), w2).
Proof.
  intros w1 w2.
  apply (X9_entry_pins_name key1 w1 "b" [CallRemove "b"; CallAdd "c"]
           (Val tt) w2); reflexivity.
Defined.

Lemma X10_witness :
  ∃ l, List (mkWorld demo_stateful_ab []) = (Val l, mkWorld demo_stateful_ab []) ∧
       length l = 2 ∧ (nil_Node ∉ l) ∧ NoDup l.
Proof.
  destruct (X10_List_snapshot (mkWorld demo_stateful_ab []))
    as (l & Hlist & Hlen & _ & Hwf).
  exists l. split; [exact Hlist|]. split; [exact Hlen|].
  apply Hwf, demo_stateful_ab_wf.
Defined.

Lemma X12_witness :
  dom (nodes demo_stateful_ab) = list_to_set ["a"; "b"; "a"] ∧
  nodes demo_stateful_ab !! "b" = Some (Some node_b).
Proof.
  destruct (X12_constructor_first_url_wins demo_group demo_factory
              ["a"; "b"; "a"] (mkStateful ∅) demo_stateful_ab
              demo_stateful_ab_built) as (Hdom & Hfirst & _).
  split; [exact Hdom|].
  apply (Hfirst ["a"] "b" ["a"]); [reflexivity|].
  intros u Hu. apply list_elem_of_singleton in Hu. by subst u.
Defined.

Lemma X13_witness :
  (∃ m, NewManagerWithRepartition demo_group demo_factory ["a"; "b"; "a"]
          (mkStateful ∅) = Val m) ∧
  ¬ (∃ m, NewManagerWithRepartition demo_group demo_factory ["a"; "down"]
            (mkStateful ∅) = Val m).
Proof.
  split; [by eexists; apply demo_stateful_ab_built|].
  intros Hval.
  apply (proj1 (X13_constructor_completes_iff demo_group demo_factory
                  ["a"; "down"] (mkStateful ∅)) Hval ["a"] "down" []);
    [reflexivity| |reflexivity].
  intros u Hu. apply list_elem_of_singleton in Hu. by subst u.
Defined.

Lemma X14_witness :
  calls [CallAdd "a"; CallAdd "b"; CallAdd "a"]
    (mkWorld (mkManager demo_group ∅ (mkRing ∅) (mkStateful ∅) demo_factory
                ∅ 0%N) []) =
    (Val tt, mkWorld demo_stateful_ab []).
Proof.
  exact (X14_constructor_is_Adds demo_group demo_factory ["a"; "b"; "a"]
           (mkStateful ∅) demo_stateful_ab demo_factory_ok
           demo_stateful_ab_built).
Defined.

Lemma X15_witness :
  let w' := (calls [CallDistribute key1; CallRemove "b"; CallAdd "c"]
               (mkWorld demo_stateful_ab [])).2 in
  nodes (mgr w') !! "c" = Some <$> (members (hashRing (mgr w')) !! "c") ∧
  nodes (mgr w') !! "b" = Some <$> (members (hashRing (mgr w')) !! "b").
Proof.
  intros w'.
  assert (calls [CallDistribute key1; CallRemove "b"; CallAdd "c"]
            (mkWorld demo_stateful_ab []) = (Val tt, w')) as Hcalls
    by reflexivity.
  split;
    apply (X15_ring_mirrors_nodes demo_group demo_factory ["a"; "b"; "a"]
             (mkStateful ∅) demo_stateful_ab []
             [CallDistribute key1; CallRemove "b"; CallAdd "c"] w'
             demo_factory_ok demo_stateful_ab_built Hcalls).
Defined.

Lemma X17_witness :
  ∃ n, nodes demo_noop_a !! Name n = Some (Some n) ∧
       Distribute key1 (mkWorld demo_noop_a []) =
         (Val (Some n), mkWorld demo_noop_a []) ∧
       (Route key1 (mkWorld demo_noop_a [])).1 = Val (Url n).
Proof.
  apply (X17_noop_routes_nonempty key1 (mkWorld demo_noop_a [])).
  - apply demo_noop_a_wf.
  - apply demo_noop_a_wf.
  - intros Hemp. by apply (f_equal (λ ns, ns !! "a")) in Hemp.
Defined.

End demo_extras.
